(** * KVStorageArea: an async key/value view onto one IndexedDB database

    A shallow embedding of [src/KVStorageArea.ts], of
    [performADatabaseOperation] and of [kvStorageDescriptor.ts], run on a
    small model of the host: a promise heap with its microtask queue, and
    an instrumented storage engine whose events are fired from outside.

    One [state] holds one area: its three internal slots (the entries of
    the WeakMaps [DatabaseName], [DatabasePromise], [BackingStoreObject]
    for that area), the private fields its getter names, the promises it
    has created, the queue of microtasks, and the engine's side.
    Promises, transactions and requests are named
    by their index in the list that holds them.  The closures the sources
    pass to [then], [finally] and [new Promise] are the constructors of
    [reaction] and [callback]; [run_reaction] and [run_callback] are their
    bodies.  A run is a list of [action]s: a call of a method, one
    microtask, or one event of the engine. *)

From Stdlib Require Import ZArith String.
From stdpp Require Import base option list numbers strings.

(** ** JavaScript values *)

#[local] Set Warnings "-register-all".

Inductive val :=
| VUndefined
| VNull
| VBool (b : bool)
| VNum (n : Z)
| VStr (s : string)
| VDate (t : Z)
| VBytes (bs : list Z)
| VArr (xs : list val)
| VFun
| VDatabase (h : nat)
| VException (name : string).

Fixpoint val_eqb (a b : val) : bool :=
  match a, b with
  | VUndefined, VUndefined | VNull, VNull | VFun, VFun => true
  | VBool x, VBool y => Bool.eqb x y
  | VNum x, VNum y | VDate x, VDate y => Z.eqb x y
  | VStr x, VStr y | VException x, VException y => String.eqb x y
  | VBytes x, VBytes y => bool_decide (x = y)
  | VDatabase x, VDatabase y => Nat.eqb x y
  | VArr xs, VArr ys =>
      (fix go (l r : list val) : bool :=
         match l, r with
         | [], [] => true
         | x :: l', y :: r' => val_eqb x y && go l' r'
         | _, _ => false
         end) xs ys
  | _, _ => false
  end.

(** Modelled from the spec: the key-validity check [allowedAsAKey], whose
    code is not part of the sources.  "numbers, strings, ordered sequences
    of valid keys, byte buffers, timestamps, and nested combinations
    thereof; undefined/absent is never a valid key". *)
Fixpoint allowedAsAKey (k : val) : bool :=
  match k with
  | VNum _ | VStr _ | VDate _ | VBytes _ => true
  | VArr xs => forallb allowedAsAKey xs
  | _ => false
  end.

(** Modelled from the spec: the serialization mechanism, "structural
    (deep, cycle-aware) serialize/deserialize of arbitrary application
    values".  A value that survives it comes back deep-equal, so the
    stored clone is the value; functions and live handles do not survive
    it. *)
Fixpoint serializable (v : val) : bool :=
  match v with
  | VFun | VDatabase _ => false
  | VArr xs => forallb serializable xs
  | _ => true
  end.

(** Induction on values, with the hypothesis on every element of an
    array. *)
Fixpoint val_nested_ind (P : val → Prop)
    (H1 : P VUndefined) (H2 : P VNull) (H3 : ∀ b, P (VBool b))
    (H4 : ∀ n, P (VNum n)) (H5 : ∀ s, P (VStr s)) (H6 : ∀ t, P (VDate t))
    (H7 : ∀ bs, P (VBytes bs)) (H8 : ∀ xs, Forall P xs → P (VArr xs))
    (H9 : P VFun) (H10 : ∀ h, P (VDatabase h)) (H11 : ∀ n, P (VException n))
    (a : val) : P a :=
  match a with
  | VUndefined => H1 | VNull => H2 | VBool b => H3 b | VNum n => H4 n
  | VStr s => H5 s | VDate t => H6 t | VBytes bs => H7 bs
  | VArr xs =>
      H8 xs ((fix all (l : list val) : Forall P l :=
                match l with
                | [] => Forall_nil_2 P
                | x :: l' =>
                    Forall_cons_2 P x l'
                      (val_nested_ind P H1 H2 H3 H4 H5 H6 H7 H8 H9 H10 H11 x)
                      (all l')
                end) xs)
  | VFun => H9 | VDatabase h => H10 h | VException n => H11 n
  end.

(** ** Promises, reactions and jobs *)

Inductive outcome := Fulfilled (v : val) | Rejected (e : val).

Inductive mode := readonly | readwrite.

(** The three closures handed to [performADatabaseOperation]. *)
Inductive steps :=
| SetSteps (key value : val)
| GetSteps (key : val)
| DeleteSteps (key : val).

(** Handlers attached to a promise, each with the promise derived by the
    [then]/[finally] call that attached it. *)
Inductive reaction :=
| OnDatabase (m : mode) (st : steps) (derived : nat)
| OnFinallyClear (awaited : nat) (derived : nat)
| ThenFinally (orig : outcome) (derived : nat)
| ResolveFunctions (target : nat).

Inductive job :=
| ReactionJob (r : reaction) (o : outcome)
| ResolveThenableJob (target thenable : nat).

Record promise := Promise {
  p_state : option outcome;
  p_reactions : list reaction
}.

(** ** The storage engine *)

(** Modelled from the spec: the engine is the platform's, known by its
    interface only: [open], [Connection.beginTransaction], [Table.get],
    [Table.put], [Table.delete] and [destroyStore], where "Requests emit
    exactly one of success/error. Transactions emit exactly one of
    complete/error/abort". *)

Inductive event_type := complete | error | abort | success.

Inductive callback :=
| ResolveUndefined (p : nat)
| ResolveWithResult (p : nat)
| RejectWithError (p : nat).

Inductive write := Put (k v : val) | Del (k : val).

Record transaction := Transaction {
  t_mode : mode;
  t_writes : list write;
  t_error : val;
  t_listeners : list (event_type * callback)
}.

Record request := Request {
  r_key : val;
  r_result : val;
  r_error : val;
  r_listeners : list (event_type * callback)
}.

Record open_request := OpenRequest {
  o_name : option string;
  o_promise : nat;
  o_fired : bool
}.

Record delete_request := DeleteRequest {
  d_name : option string;
  d_promise : nat;
  d_fired : bool
}.

(** Call-order instrumentation. *)
Inductive log_entry :=
| LogOpen (name : option string) (p : nat)
| LogSettled (p : nat)
| LogCache (c : option nat)
| LogTransaction (m : mode)
| LogDeleteDatabase (name : option string) (awaited : option nat).

(** ** The backing-store descriptor *)

Record KVStorageAreaBackingStore := BackingStore {
  database : option string;
  store : string;
  version : Z;
  frozen : bool
}.

(** The getter [backingStore] names [this.#BackingStoreObject] and
    [this.#DatabaseName].  The class declares neither, which as written is
    an early error: the class does not parse.  The getter is embedded as
    it runs once the two names are declared as fields of the class.  They
    are fields of the instance, apart from the WeakMaps of the same
    names: the constructor writes the WeakMaps only, so both fields start
    undefined, and nothing but the getter writes either. *)
Record private_fields := Private {
  private_DatabaseName : option string;
  private_BackingStoreObject : option KVStorageAreaBackingStore
}.

(** ** One storage area and its host *)

Record state := State {
  (* the internal slots of the area *)
  DatabaseName : option string;
  DatabasePromise : option nat;
  BackingStoreObject : option KVStorageAreaBackingStore;
  (* the promise heap and the microtask queue *)
  promises : list promise;
  jobs : list job;
  (* the engine *)
  opens : list open_request;
  deletes : list delete_request;
  transactions : list transaction;
  requests : list request;
  contents : list (val * val);
  (* instrumentation *)
  log : list log_entry;
  failed_assertions : nat;
  descriptor_computations : nat;
  (* the private fields of the instance *)
  private : private_fields
}.

Definition set_DatabasePromise (c : option nat) (s : state) : state :=
  State (DatabaseName s) c (BackingStoreObject s) (promises s) (jobs s)
    (opens s) (deletes s) (transactions s) (requests s) (contents s)
    (log s ++ [LogCache c]) (failed_assertions s) (descriptor_computations s)
    (private s).

Definition set_BackingStoreObject (b : option KVStorageAreaBackingStore)
    (s : state) : state :=
  State (DatabaseName s) (DatabasePromise s) b (promises s) (jobs s)
    (opens s) (deletes s) (transactions s) (requests s) (contents s)
    (log s) (failed_assertions s) (descriptor_computations s) (private s).

Definition set_private_BackingStoreObject (b : KVStorageAreaBackingStore)
    (s : state) : state :=
  State (DatabaseName s) (DatabasePromise s) (BackingStoreObject s)
    (promises s) (jobs s)
    (opens s) (deletes s) (transactions s) (requests s) (contents s)
    (log s) (failed_assertions s) (descriptor_computations s)
    (Private (private_DatabaseName (private s)) (Some b)).

Definition set_DatabaseName (n : string) (s : state) : state :=
  State (Some n) (DatabasePromise s) (BackingStoreObject s) (promises s)
    (jobs s)
    (opens s) (deletes s) (transactions s) (requests s) (contents s)
    (log s) (failed_assertions s) (descriptor_computations s) (private s).

Definition count_descriptor (s : state) : state :=
  State (DatabaseName s) (DatabasePromise s) (BackingStoreObject s)
    (promises s) (jobs s)
    (opens s) (deletes s) (transactions s) (requests s) (contents s)
    (log s) (failed_assertions s) (S (descriptor_computations s)) (private s).

Definition with_promises (ps : list promise) (s : state) : state :=
  State (DatabaseName s) (DatabasePromise s) (BackingStoreObject s) ps (jobs s)
    (opens s) (deletes s) (transactions s) (requests s) (contents s)
    (log s) (failed_assertions s) (descriptor_computations s) (private s).

Definition with_jobs (js : list job) (s : state) : state :=
  State (DatabaseName s) (DatabasePromise s) (BackingStoreObject s)
    (promises s) js
    (opens s) (deletes s) (transactions s) (requests s) (contents s)
    (log s) (failed_assertions s) (descriptor_computations s) (private s).

Definition with_opens (os : list open_request) (s : state) : state :=
  State (DatabaseName s) (DatabasePromise s) (BackingStoreObject s)
    (promises s) (jobs s)
    os (deletes s) (transactions s) (requests s) (contents s)
    (log s) (failed_assertions s) (descriptor_computations s) (private s).

Definition with_deletes (ds : list delete_request) (s : state) : state :=
  State (DatabaseName s) (DatabasePromise s) (BackingStoreObject s)
    (promises s) (jobs s)
    (opens s) ds (transactions s) (requests s) (contents s)
    (log s) (failed_assertions s) (descriptor_computations s) (private s).

Definition with_transactions (ts : list transaction) (s : state) : state :=
  State (DatabaseName s) (DatabasePromise s) (BackingStoreObject s)
    (promises s) (jobs s)
    (opens s) (deletes s) ts (requests s) (contents s)
    (log s) (failed_assertions s) (descriptor_computations s) (private s).

Definition with_requests (rs : list request) (s : state) : state :=
  State (DatabaseName s) (DatabasePromise s) (BackingStoreObject s)
    (promises s) (jobs s)
    (opens s) (deletes s) (transactions s) rs (contents s)
    (log s) (failed_assertions s) (descriptor_computations s) (private s).

Definition with_contents (c : list (val * val)) (s : state) : state :=
  State (DatabaseName s) (DatabasePromise s) (BackingStoreObject s)
    (promises s) (jobs s)
    (opens s) (deletes s) (transactions s) (requests s) c
    (log s) (failed_assertions s) (descriptor_computations s) (private s).

Definition add_log (e : log_entry) (s : state) : state :=
  State (DatabaseName s) (DatabasePromise s) (BackingStoreObject s)
    (promises s) (jobs s)
    (opens s) (deletes s) (transactions s) (requests s) (contents s)
    (log s ++ [e]) (failed_assertions s) (descriptor_computations s)
    (private s).

Definition console_assert (b : bool) (s : state) : state :=
  State (DatabaseName s) (DatabasePromise s) (BackingStoreObject s)
    (promises s) (jobs s)
    (opens s) (deletes s) (transactions s) (requests s) (contents s)
    (log s) (if b then failed_assertions s else S (failed_assertions s))
    (descriptor_computations s) (private s).

(** ** Promise operations *)

Definition new_promise (st : option outcome) (s : state) : nat * state :=
  (length (promises s), with_promises (promises s ++ [Promise st []]) s).

Definition enqueue (js : list job) (s : state) : state :=
  with_jobs (jobs s ++ js) s.

Definition pending_reactions (p : nat) (ps : list promise)
  : option (list reaction) :=
  match ps !! p with
  | Some (Promise None rs) => Some rs
  | _ => None
  end.

Definition settle_cell (o : outcome) (pr : promise) : promise :=
  match p_state pr with
  | None => Promise (Some o) []
  | Some _ => pr
  end.

(** The jobs settling [p] queues: one per attached reaction. *)
Definition triggered (p : nat) (o : outcome) (ps : list promise) : list job :=
  match pending_reactions p ps with
  | Some rs => map (λ r, ReactionJob r o) rs
  | None => []
  end.

Definition settled_now (p : nat) (ps : list promise) : list log_entry :=
  match pending_reactions p ps with
  | Some _ => [LogSettled p]
  | None => []
  end.

(** Settling a pending promise queues its reactions; a promise that has
    settled stays as it is. *)
Definition settle (p : nat) (o : outcome) (s : state) : state :=
  State (DatabaseName s) (DatabasePromise s) (BackingStoreObject s)
    (alter (settle_cell o) p (promises s))
    (jobs s ++ triggered p o (promises s))
    (opens s) (deletes s) (transactions s) (requests s) (contents s)
    (log s ++ settled_now p (promises s))
    (failed_assertions s) (descriptor_computations s) (private s).

Definition attach (r : reaction) (pr : promise) : promise :=
  match p_state pr with
  | None => Promise None (p_reactions pr ++ [r])
  | Some _ => pr
  end.

Definition immediate (p : nat) (r : reaction) (ps : list promise) : list job :=
  match ps !! p with
  | Some (Promise (Some o) _) => [ReactionJob r o]
  | _ => []
  end.

(** A reaction is attached to a pending promise, and queued at once on a
    settled one. *)
Definition perform_then (p : nat) (r : reaction) (s : state) : state :=
  State (DatabaseName s) (DatabasePromise s) (BackingStoreObject s)
    (alter (attach r) p (promises s))
    (jobs s ++ immediate p r (promises s))
    (opens s) (deletes s) (transactions s) (requests s) (contents s)
    (log s) (failed_assertions s) (descriptor_computations s) (private s).

(** [p.then(h)] and [p.finally(h)]: a fresh derived promise, and the
    handler attached to [p]. *)
Definition then_ (p : nat) (h : nat → reaction) (s : state) : nat * state :=
  let '(d, s) := new_promise None s in
  (d, perform_then p (h d) s).

(** [Promise.reject(e)]: a promise that is settled from the start. *)
Definition Promise_reject (e : val) (s : state) : nat * state :=
  let '(p, s) := new_promise (Some (Rejected e)) s in
  (p, add_log (LogSettled p) s).

(** What a handler hands back: a plain value, a promise, or an exception. *)
Inductive completion :=
| Normal (v : val)
| NormalPromise (p : nat)
| Throw (e : val).

Definition resolve_derived (d : nat) (c : completion) (s : state) : state :=
  match c with
  | Normal v => settle d (Fulfilled v) s
  | NormalPromise q => enqueue [ResolveThenableJob d q] s
  | Throw e => settle d (Rejected e) s
  end.

(** ** Engine primitives *)

(** Modelled from the spec: the committed store is a list of entries, at
    most one per key once written through [apply_write]; a transaction
    buffers its writes and applies them when it completes; the methods of
    the object store throw on a key that is not allowed ([put] checks the
    key, then clones the value). *)

Definition remove_key (k : val) (c : list (val * val)) : list (val * val) :=
  List.filter (λ kv, negb (val_eqb kv.1 k)) c.

Definition lookup_key (k : val) (c : list (val * val)) : val :=
  match List.find (λ kv, val_eqb kv.1 k) c with
  | Some kv => kv.2
  | None => VUndefined
  end.

Definition apply_write (c : list (val * val)) (w : write) : list (val * val) :=
  match w with
  | Put k v => (k, v) :: remove_key k c
  | Del k => remove_key k c
  end.

Definition database_transaction (m : mode) (s : state) : nat * state :=
  (length (transactions s),
   add_log (LogTransaction m)
     (with_transactions (transactions s ++ [Transaction m [] VNull []]) s)).

Definition push_write (w : write) (t : transaction) : transaction :=
  Transaction (t_mode t) (t_writes t ++ [w]) (t_error t) (t_listeners t).

Definition add_write (t : nat) (w : write) (s : state) : state :=
  with_transactions (alter (push_write w) t (transactions s)) s.

Definition store_delete (t : nat) (key : val) (s : state) : val + state :=
  if allowedAsAKey key then inr (add_write t (Del key) s)
  else inl (VException "DataError").

Definition store_put (t : nat) (value key : val) (s : state) : val + state :=
  if negb (allowedAsAKey key) then inl (VException "DataError")
  else if serializable value then inr (add_write t (Put key value) s)
  else inl (VException "DataCloneError").

Definition store_get (key : val) (s : state) : val + nat * state :=
  if allowedAsAKey key then
    inr (length (requests s),
         with_requests (requests s ++ [Request key VUndefined VNull []]) s)
  else inl (VException "DataError").

Definition push_listener (l : event_type * callback) (t : transaction)
  : transaction :=
  Transaction (t_mode t) (t_writes t) (t_error t) (t_listeners t ++ [l]).

Definition push_listener_request (l : event_type * callback) (r : request)
  : request :=
  Request (r_key r) (r_result r) (r_error r) (r_listeners r ++ [l]).

(** Modelled from the spec: [addASimpleEventListener], whose code is not
    part of the sources.  "Attach listeners to the transaction's ...
    terminal events"; one for a transaction, one for a request. *)
Definition addASimpleEventListener (t : nat) (ty : event_type) (cb : callback)
    (s : state) : state :=
  with_transactions (alter (push_listener (ty, cb)) t (transactions s)) s.

Definition addASimpleEventListener_request (r : nat) (ty : event_type)
    (cb : callback) (s : state) : state :=
  with_requests (alter (push_listener_request (ty, cb)) r (requests s)) s.

(** Modelled from the spec: [initializeTheDatabasePromise], whose code is
    not part of the sources.  "start exactly one open against the engine
    using the area's fixed location, cache the resulting future". *)
Definition initializeTheDatabasePromise (s : state) : state :=
  let '(p, s) := new_promise None s in
  let s := set_DatabasePromise (Some p) s in
  add_log (LogOpen (DatabaseName s) p)
    (with_opens (opens s ++ [OpenRequest (DatabaseName s) p false]) s).

(** Modelled from the spec: [deletingTheDatabase], whose code is not part
    of the sources.  "Issue a destroy-entire-store request against the
    engine for the area's fixed location. Resolve when destruction
    completes; reject if destruction fails."  [awaited] only labels the
    log entry with the promise the caller had waited for. *)
Definition deletingTheDatabase (name : option string) (awaited : option nat)
    (s : state) : nat * state :=
  let '(q, s) := new_promise None s in
  (q, add_log (LogDeleteDatabase name awaited)
        (with_deletes (deletes s ++ [DeleteRequest name q false]) s)).

(** ** performADatabaseOperation *)

(** [src/unnamed/part_000].  [None] stands for the TypeError of calling
    [then] on a null [[DatabasePromise]], which would be thrown if
    [initializeTheDatabasePromise] left the slot null. *)
Definition performADatabaseOperation (m : mode) (st : steps) (s : state)
  : option nat * state :=
  (* 1. Assert: area.[[DatabaseName]] is a string. *)
  let s := console_assert (bool_decide (is_Some (DatabaseName s))) s in
  (* 2. If area.[[DatabasePromise]] is null, initialize it. *)
  let s := match DatabasePromise s with
           | None => initializeTheDatabasePromise s
           | Some _ => s
           end in
  (* 3. React to area.[[DatabasePromise]]. *)
  match DatabasePromise s with
  | Some p => let '(d, s) := then_ p (OnDatabase m st) s in (Some d, s)
  | None => (None, s)
  end.

(** ** KVStorageArea *)

(** [src/KVStorageArea.ts].  The methods call
    [performingADatabaseOperation]; the sources define no function of that
    name, and the call is read as one of [performADatabaseOperation]. *)

Definition constructor (name : string) (s : state) : state :=
  let s := set_DatabaseName ("kv-storage:" +:+ name) s in
  let s := set_DatabasePromise None s in
  set_BackingStoreObject None s.

(** The executor shared by the write paths: a new promise settled by the
    transaction's events. *)
Definition transaction_promise (t : nat) (s : state) : nat * state :=
  let '(p, s) := new_promise None s in
  let s := addASimpleEventListener t complete (ResolveUndefined p) s in
  let s := addASimpleEventListener t error (RejectWithError p) s in
  let s := addASimpleEventListener t abort (RejectWithError p) s in
  (p, s).

Definition set_steps (key value : val) (t : nat) (s : state)
  : completion * state :=
  let r := match value with
           | VUndefined => store_delete t key s
           | _ => store_put t value key s
           end in
  match r with
  | inl e => (Throw e, s)
  | inr s => let '(p, s) := transaction_promise t s in (NormalPromise p, s)
  end.

Definition get_steps (key : val) (s : state) : completion * state :=
  match store_get key s with
  | inl e => (Throw e, s)
  | inr (r, s) =>
      let '(p, s) := new_promise None s in
      let s := addASimpleEventListener_request r success (ResolveWithResult p) s in
      let s := addASimpleEventListener_request r error (RejectWithError p) s in
      (NormalPromise p, s)
  end.

Definition delete_steps (key : val) (t : nat) (s : state)
  : completion * state :=
  match store_delete t key s with
  | inl e => (Throw e, s)
  | inr s => let '(p, s) := transaction_promise t s in (NormalPromise p, s)
  end.

Definition set (key value : val) (s : state) : option nat * state :=
  performADatabaseOperation readwrite (SetSteps key value) s.

Definition get (key : val) (s : state) : option nat * state :=
  if negb (allowedAsAKey key) then
    let '(p, s) := Promise_reject (VException "DataError") s in (Some p, s)
  else performADatabaseOperation readonly (GetSteps key) s.

Definition delete (key : val) (s : state) : option nat * state :=
  if negb (allowedAsAKey key) then
    let '(p, s) := Promise_reject (VException "DataError") s in (Some p, s)
  else performADatabaseOperation readwrite (DeleteSteps key) s.

(** [finally] is [then] with one handler for both outcomes, whose derived
    promise takes the outcome of the awaited promise once the promise the
    handler returned has fulfilled ([OnFinallyClear], then [ThenFinally]
    in [run_reaction]). *)
Definition clear (s : state) : option nat * state :=
  match DatabasePromise s with
  | Some p => let '(d, s) := then_ p (OnFinallyClear p) s in (Some d, s)
  | None =>
      let '(q, s) := deletingTheDatabase (DatabaseName s) None s in (Some q, s)
  end.

(** [this.#BackingStoreObject ??= Object.freeze({...})]: the right-hand
    side is evaluated, and the field written, only when the field is
    undefined.  [database] is what [this.#DatabaseName] holds.  [frozen]
    records [Object.freeze]; [count_descriptor] counts the evaluations of
    the right-hand side. *)
Definition backingStore (s : state) : KVStorageAreaBackingStore * state :=
  match private_BackingStoreObject (private s) with
  | Some b => (b, s)
  | None =>
      let b :=
        BackingStore (private_DatabaseName (private s)) "store" 1 true in
      (b, set_private_BackingStoreObject b (count_descriptor s))
  end.

(** ** Microtasks *)

Definition run_steps (st : steps) (t : nat) (s : state) : completion * state :=
  match st with
  | SetSteps key value => set_steps key value t s
  | GetSteps key => get_steps key s
  | DeleteSteps key => delete_steps key t s
  end.

Definition run_reaction (r : reaction) (o : outcome) (s : state) : state :=
  match r with
  | OnDatabase m st d =>
      match o with
      | Fulfilled _ =>
          let '(t, s) := database_transaction m s in
          let '(c, s) := run_steps st t s in
          resolve_derived d c s
      | Rejected e => settle d (Rejected e) s
      end
  | OnFinallyClear awaited d =>
      let s := set_DatabasePromise None s in
      let '(q, s) := deletingTheDatabase (DatabaseName s) (Some awaited) s in
      let '(f, s) := then_ q (ThenFinally o) s in
      resolve_derived d (NormalPromise f) s
  | ThenFinally orig d =>
      match o with
      | Fulfilled _ => settle d orig s
      | Rejected e => settle d (Rejected e) s
      end
  | ResolveFunctions target => settle target o s
  end.

Definition run_job (j : job) (s : state) : state :=
  match j with
  | ReactionJob r o => run_reaction r o s
  | ResolveThenableJob target thenable =>
      perform_then thenable (ResolveFunctions target) s
  end.

Definition tick (s : state) : state :=
  match jobs s with
  | [] => s
  | j :: js => run_job j (with_jobs js s)
  end.

(** ** Engine events *)

(** Modelled from the spec: an event runs the listeners registered for
    its type, in the order they were added.  An open or a destruction
    fires once; the model lets a transaction or a request fire any event
    any number of times, so that nothing proved below leans on the engine
    delivering exactly one terminal event. *)

Definition event_type_eqb (a b : event_type) : bool :=
  match a, b with
  | complete, complete | error, error | abort, abort | success, success => true
  | _, _ => false
  end.

Definition run_callback (result err : val) (cb : callback) (s : state)
  : state :=
  match cb with
  | ResolveUndefined p => settle p (Fulfilled VUndefined) s
  | ResolveWithResult p => settle p (Fulfilled result) s
  | RejectWithError p => settle p (Rejected err) s
  end.

Definition dispatch (ty : event_type) (result err : val)
    (ls : list (event_type * callback)) (s : state) : state :=
  foldl (λ s l, if event_type_eqb l.1 ty then run_callback result err l.2 s
                else s) s ls.

Definition open_success (i : nat) (s : state) : state :=
  match opens s !! i with
  | Some (OpenRequest n p false) =>
      settle p (Fulfilled (VDatabase i))
        (with_opens (<[i := OpenRequest n p true]> (opens s)) s)
  | _ => s
  end.

(** Modelled from the spec: the failure branch of
    [initializeTheDatabasePromise].  "a failed open must clear the cached
    future so the next caller retries". *)
Definition open_error (i : nat) (e : val) (s : state) : state :=
  match opens s !! i with
  | Some (OpenRequest n p false) =>
      set_DatabasePromise None
        (settle p (Rejected e)
           (with_opens (<[i := OpenRequest n p true]> (opens s)) s))
  | _ => s
  end.

Definition delete_success (i : nat) (s : state) : state :=
  match deletes s !! i with
  | Some (DeleteRequest n q false) =>
      settle q (Fulfilled VUndefined)
        (with_contents []
           (with_deletes (<[i := DeleteRequest n q true]> (deletes s)) s))
  | _ => s
  end.

Definition delete_error (i : nat) (e : val) (s : state) : state :=
  match deletes s !! i with
  | Some (DeleteRequest n q false) =>
      settle q (Rejected e)
        (with_deletes (<[i := DeleteRequest n q true]> (deletes s)) s)
  | _ => s
  end.

Definition transaction_complete (t : nat) (s : state) : state :=
  match transactions s !! t with
  | Some (Transaction m ws e ls) =>
      dispatch complete VUndefined e ls
        (with_contents (foldl apply_write (contents s) ws)
           (with_transactions (<[t := Transaction m [] e ls]> (transactions s))
              s))
  | None => s
  end.

Definition transaction_fail (ty : event_type) (t : nat) (e : val) (s : state)
  : state :=
  match transactions s !! t with
  | Some (Transaction m ws _ ls) =>
      dispatch ty VUndefined e ls
        (with_transactions (<[t := Transaction m [] e ls]> (transactions s)) s)
  | None => s
  end.

Definition request_success (r : nat) (s : state) : state :=
  match requests s !! r with
  | Some (Request k _ e ls) =>
      let res := lookup_key k (contents s) in
      dispatch success res e ls
        (with_requests (<[r := Request k res e ls]> (requests s)) s)
  | None => s
  end.

Definition request_error (r : nat) (e : val) (s : state) : state :=
  match requests s !! r with
  | Some (Request k res _ ls) =>
      dispatch error res e ls
        (with_requests (<[r := Request k res e ls]> (requests s)) s)
  | None => s
  end.

(** ** Runs *)

Inductive operation :=
| OpSet (key value : val)
| OpGet (key : val)
| OpDelete (key : val)
| OpClear
| OpBackingStore.

Inductive engine_event :=
| OpenSuccess (i : nat)
| OpenError (i : nat) (e : val)
| DeleteSuccess (i : nat)
| DeleteError (i : nat) (e : val)
| TransactionComplete (t : nat)
| TransactionError (t : nat) (e : val)
| TransactionAbort (t : nat) (e : val)
| RequestSuccess (r : nat)
| RequestError (r : nat) (e : val).

Inductive action :=
| Call (o : operation)
| Tick
| Fire (ev : engine_event).

Definition call (o : operation) (s : state) : state :=
  match o with
  | OpSet k v => (set k v s).2
  | OpGet k => (get k s).2
  | OpDelete k => (delete k s).2
  | OpClear => (clear s).2
  | OpBackingStore => (backingStore s).2
  end.

Definition fire (ev : engine_event) (s : state) : state :=
  match ev with
  | OpenSuccess i => open_success i s
  | OpenError i e => open_error i e s
  | DeleteSuccess i => delete_success i s
  | DeleteError i e => delete_error i e s
  | TransactionComplete t => transaction_complete t s
  | TransactionError t e => transaction_fail error t e s
  | TransactionAbort t e => transaction_fail abort t e s
  | RequestSuccess r => request_success r s
  | RequestError r e => request_error r e s
  end.

(** Engine events are tasks: one is delivered only once the microtask
    queue has drained. *)
Definition step (s : state) (a : action) : state :=
  match a with
  | Call o => call o s
  | Tick => tick s
  | Fire ev => match jobs s with [] => fire ev s | _ => s end
  end.

Definition run (tr : list action) (s : state) : state := foldl step s tr.

Definition host (persisted : list (val * val)) : state :=
  State None None None [] [] [] [] [] [] persisted [] 0 0 (Private None None).

(** [kvStorageDescriptor.ts] *)
Definition defaultKVStorageArea : state := constructor "default" (host []).

Definition get_kvStorage : state := defaultKVStorageArea.

Definition outcome_of (p : nat) (s : state) : option outcome :=
  pr ← promises s !! p; p_state pr.

Definition flight (os : list open_request) : list open_request :=
  List.filter (λ o, negb (o_fired o)) os.

Definition open_in_flight (s : state) : list open_request := flight (opens s).

(** ** Who may settle what *)

Definition callback_target (cb : callback) : nat :=
  match cb with
  | ResolveUndefined p | ResolveWithResult p | RejectWithError p => p
  end.

(** [Pr p r]: the reaction [r] may be attached to promise [p]; [Pj j]: the
    job [j] may be queued; [Pc p]: a listener or an engine request may
    settle [p]. *)
Definition heap_ok (Pr : nat → reaction → Prop) (ps : list promise) : Prop :=
  ∀ p pr, ps !! p = Some pr → Forall (Pr p) (p_reactions pr).

Definition listeners_ok (Pc : nat → Prop) (ls : list (event_type * callback))
  : Prop :=
  Forall (λ l, Pc (callback_target l.2)) ls.

Definition txs_ok (Pc : nat → Prop) (ts : list transaction) : Prop :=
  Forall (λ t, listeners_ok Pc (t_listeners t)) ts.

Definition reqs_ok (Pc : nat → Prop) (rs : list request) : Prop :=
  Forall (λ r, listeners_ok Pc (r_listeners r)) rs.

Definition opens_ok (Pc : nat → Prop) (os : list open_request) : Prop :=
  Forall (λ o, o_fired o = false → Pc (o_promise o)) os.

Definition deletes_ok (Pc : nat → Prop) (ds : list delete_request) : Prop :=
  Forall (λ d, d_fired d = false → Pc (d_promise d)) ds.

Definition settlers_ok (Pr : nat → reaction → Prop) (Pj : job → Prop)
    (Pc : nat → Prop) (s : state) : Prop :=
  heap_ok Pr (promises s) ∧ Forall Pj (jobs s)
  ∧ txs_ok Pc (transactions s) ∧ reqs_ok Pc (requests s)
  ∧ opens_ok Pc (opens s) ∧ deletes_ok Pc (deletes s).

(** ** Areas on which clear is never called *)

Definition no_clear (r : reaction) : Prop :=
  match r with OnFinallyClear _ _ => False | _ => True end.

Definition no_clear_job (j : job) : Prop :=
  match j with ReactionJob r _ => no_clear r | _ => True end.

Definition clear_free : state → Prop :=
  settlers_ok (λ _, no_clear) no_clear_job (λ _, True).

(** At most one open is in flight, and it is the cached one. *)
Definition flight_inv (s : state) : Prop :=
  match open_in_flight s with
  | [] => True
  | [o] => DatabasePromise s = Some (o_promise o)
  | _ => False
  end.

Definition one_open (s : state) : Prop := clear_free s ∧ flight_inv s.

(** ** The order of clear *)

Definition awaits_host (p : nat) (r : reaction) : Prop :=
  ∀ a d, r = OnFinallyClear a d → a = p.

Definition awaited_logged (L : list log_entry) (j : job) : Prop :=
  ∀ a d o, j = ReactionJob (OnFinallyClear a d) o → LogSettled a ∈ L.

Definition settled_logged (ps : list promise) (L : list log_entry) : Prop :=
  ∀ p pr o, ps !! p = Some pr → p_state pr = Some o → LogSettled p ∈ L.

(** Every destruction issued for a clear that awaited [a] comes after the
    settlement of [a], and right after the cache was set to null. *)
Definition ordered (L : list log_entry) : Prop :=
  ∀ l1 l2 n a, L = l1 ++ LogDeleteDatabase n (Some a) :: l2 →
    LogSettled a ∈ l1 ∧ last l1 = Some (LogCache None).

Definition plain (e : log_entry) : Prop :=
  ∀ n a, e ≠ LogDeleteDatabase n (Some a).

Definition ordered_heap (ps : list promise) (js : list job) (L : list log_entry)
  : Prop :=
  heap_ok awaits_host ps ∧ Forall (awaited_logged L) js
  ∧ settled_logged ps L ∧ ordered L.

Definition clear_order (s : state) : Prop :=
  ordered_heap (promises s) (jobs s) (log s).

(** ** What a clear waits for *)

Definition reaction_target (r : reaction) : nat :=
  match r with
  | OnDatabase _ _ d | OnFinallyClear _ d | ThenFinally _ d => d
  | ResolveFunctions t => t
  end.

Definition job_target (j : job) : nat :=
  match j with
  | ReactionJob r _ => reaction_target r
  | ResolveThenableJob t _ => t
  end.

(** Every promise that something may settle has been allocated. *)
Definition bounded (n : nat) : state → Prop :=
  settlers_ok (λ _ r, reaction_target r < n) (λ j, job_target j < n)
    (λ p, p < n).

Definition wf (s : state) : Prop := bounded (length (promises s)) s.

Definition is_clear (r : reaction) : Prop :=
  match r with OnFinallyClear _ _ => True | _ => False end.

Definition is_clear_job (j : job) : Prop :=
  match j with ReactionJob r _ => is_clear r | _ => False end.

(** Nothing but the handler of a clear may settle [r0]. *)
Definition quiet (r0 : nat) : state → Prop :=
  settlers_ok (λ _ r, reaction_target r ≠ r0 ∨ is_clear r)
    (λ j, job_target j ≠ r0 ∨ is_clear_job j) (λ p, p ≠ r0).

Definition pending (r0 : nat) (ps : list promise) : Prop :=
  ∃ rs, ps !! r0 = Some (Promise None rs).

Definition waiting (r0 : nat) (s : state) : Prop :=
  pending r0 (promises s) ∧ quiet r0 s.

Definition quiet_action (a : action) : Prop :=
  match a with
  | Call (OpSet _ _) | Call (OpGet _) | Call (OpDelete _) => False
  | _ => True
  end.

Definition cleared (r0 : nat) (s : state) : Prop :=
  DatabasePromise s = None ∨ waiting r0 s.

(** ** The write paths *)

(** A promise that has settled keeps its outcome. *)
Definition extends (ps ps' : list promise) : Prop :=
  ∀ p o, ps !! p ≫= p_state = Some o → ps' !! p ≫= p_state = Some o.

Definition write_of (key value : val) : write :=
  match value with
  | VUndefined => Del key
  | _ => Put key value
  end.

(** The listeners the write paths put on their transaction. *)
Definition write_listeners (p : nat) : list (event_type * callback) :=
  [(complete, ResolveUndefined p); (error, RejectWithError p);
   (abort, RejectWithError p)].

(** ** The read path *)

Definition read_listeners (p : nat) : list (event_type * callback) :=
  [(success, ResolveWithResult p); (error, RejectWithError p)].

(** ** Operations run to their end *)

(** No microtask is queued, and the database is either open, its promise
    cached, or not cached at all. *)
Definition idle (s : state) : Prop :=
  jobs s = []
  ∧ match DatabasePromise s with
    | Some p0 =>
        ∃ db rs, promises s !! p0 = Some (Promise (Some (Fulfilled db)) rs)
    | None => True
    end.

(** The open the next operation has to wait for, if any. *)
Definition opening (s : state) : list action :=
  match DatabasePromise s with
  | Some _ => []
  | None => [Fire (OpenSuccess (length (opens s)))]
  end.

(** A write run to the completion of its transaction, and a read run to
    the success of its request. *)
Definition write_to_completion (s : state) : list action :=
  opening s
  ++ [Tick; Tick; Fire (TransactionComplete (length (transactions s))); Tick].

Definition read_to_success (s : state) : list action :=
  opening s
  ++ [Tick; Tick; Fire (RequestSuccess (length (requests s))); Tick].

(** Writes, each run to completion before the next is issued. *)
Fixpoint writes (ws : list (val * val)) (s : state) : state :=
  match ws with
  | [] => s
  | (k, v) :: ws => writes ws (run (write_to_completion s) (set k v s).2)
  end.

(** The promise [d] returned by a write waits for the promise [p] that the
    listeners of transaction [t] settle. *)
Definition in_flight (d p t : nat) (s : state) : Prop :=
  jobs s = [] ∧ d ≠ p
  ∧ (∃ m ws e0,
       transactions s !! t = Some (Transaction m ws e0 (write_listeners p)))
  ∧ promises s !! p = Some (Promise None [ResolveFunctions d])
  ∧ promises s !! d = Some (Promise None []).

Definition write_steps (key value : val) (st : steps) : Prop :=
  st = SetSteps key value ∨ st = DeleteSteps key.

(** ** The database name and the descriptor slot *)

(** The part of the state that neither a handler's steps nor a dispatched
    event can reach. *)
Definition outside_heap (s : state) :=
  (DatabaseName s, DatabasePromise s, BackingStoreObject s, opens s,
   deletes s, contents s, failed_assertions s, descriptor_computations s,
   private s).

Definition slots (s : state) :=
  (DatabaseName s, BackingStoreObject s, descriptor_computations s,
   failed_assertions s, private s).

(** The descriptor the type [KVStorageAreaBackingStore<N>] announces for
    the area made for [name]. *)
Definition descriptor_of (name : string) : KVStorageAreaBackingStore :=
  BackingStore (Some ("kv-storage:" +:+ name)) "store" 1 true.

(** The descriptor the getter computes: [this.#DatabaseName] is
    undefined. *)
Definition computed_descriptor : KVStorageAreaBackingStore :=
  BackingStore None "store" 1 true.

Definition area_inv (name : string) (s : state) : Prop :=
  DatabaseName s = Some ("kv-storage:" +:+ name)
  ∧ failed_assertions s = 0
  ∧ BackingStoreObject s = None
  ∧ private_DatabaseName (private s) = None
  ∧ (private_BackingStoreObject (private s) = None
     ∧ descriptor_computations s = 0
     ∨ private_BackingStoreObject (private s) = Some computed_descriptor
       ∧ descriptor_computations s = 1).

(** ** Reads in flight *)

(** The promise [d] returned by a get waits for the promise [p] that the
    listeners of request [r], a read of [key], settle. *)
Definition reading (key : val) (d p r : nat) (s : state) : Prop :=
  jobs s = [] ∧ d ≠ p
  ∧ (∃ v0 e0, requests s !! r = Some (Request key v0 e0 (read_listeners p)))
  ∧ promises s !! p = Some (Promise None [ResolveFunctions d])
  ∧ promises s !! d = Some (Promise None []).

(** ** finally *)

(** The outcome [finally] gives its derived promise: that of the awaited
    promise, unless the promise its handler returned was rejected. *)
Definition finally_outcome (orig o : outcome) : outcome :=
  match o with
  | Fulfilled _ => orig
  | Rejected e => Rejected e
  end.

(** ** Operations one after the other *)

(** A clear run to the success of the destruction it issues. *)
Definition clear_to_completion (s : state) : list action :=
  match DatabasePromise s with
  | Some _ =>
      [Tick; Tick; Fire (DeleteSuccess (length (deletes s))); Tick; Tick]
  | None => [Fire (DeleteSuccess (length (deletes s)))]
  end.

(** The operations whose keys the engine accepts and whose values serialize. *)
Definition valid_op (o : operation) : Prop :=
  match o with
  | OpSet k v => allowedAsAKey k = true ∧ serializable v = true
  | OpGet k | OpDelete k => allowedAsAKey k = true
  | OpClear | OpBackingStore => True
  end.

(** The microtasks and the engine's events that take an operation to its
    successful end. *)
Definition to_completion (o : operation) (s : state) : list action :=
  match o with
  | OpSet _ _ | OpDelete _ => write_to_completion s
  | OpGet _ => read_to_success s
  | OpClear => clear_to_completion s
  | OpBackingStore => []
  end.

(** Operations issued one after the other, each one when the one before
    has come to its end. *)
Fixpoint in_turn (ops : list operation) (s : state) : state :=
  match ops with
  | [] => s
  | o :: ops => in_turn ops (run (to_completion o s) (call o s))
  end.

(** What a map would hold at [k] after [o], if it held [v] before. *)
Definition effect (k : val) (v : val) (o : operation) : val :=
  match o with
  | OpSet k' v' => if val_eqb k' k then v' else v
  | OpDelete k' => if val_eqb k' k then VUndefined else v
  | OpClear => VUndefined
  | OpGet _ | OpBackingStore => v
  end.

(** ** Operations waiting for one open *)

(** An operation that goes through [performADatabaseOperation] and whose
    steps the engine accepts. *)
Definition keyed (o : operation) : Prop :=
  match o with
  | OpSet k v => allowedAsAKey k = true ∧ serializable v = true
  | OpGet k | OpDelete k => allowedAsAKey k = true
  | OpClear | OpBackingStore => False
  end.

(** The mode of the transaction an operation asks for, and the writes it
    puts in it. *)
Definition intent (o : operation) : mode * list write :=
  match o with
  | OpSet k v => (readwrite, [write_of k v])
  | OpDelete k => (readwrite, [Del k])
  | OpGet _ | OpClear | OpBackingStore => (readonly, [])
  end.

(** What a transaction was opened for. *)
Definition tx_intent (t : transaction) : mode * list write :=
  (t_mode t, t_writes t).

(** The handler an operation attaches to the database promise. *)
Definition handler_of (o : operation) (r : reaction) : Prop :=
  match o with
  | OpSet k v => ∃ d, r = OnDatabase readwrite (SetSteps k v) d
  | OpGet k => ∃ d, r = OnDatabase readonly (GetSteps k) d
  | OpDelete k => ∃ d, r = OnDatabase readwrite (DeleteSteps k) d
  | OpClear | OpBackingStore => False
  end.

(** The operations [ops] wait, in this order, for the open whose promise
    [p] is cached. *)
Definition queued (ops : list operation) (p : nat) (s : state) : Prop :=
  jobs s = [] ∧ DatabasePromise s = Some p
  ∧ ∃ rs, promises s !! p = Some (Promise None rs)
          ∧ Forall2 handler_of ops rs.

(** ** What a call hands back *)

(** The promise a method hands back to its caller. *)
Definition returned (o : operation) (s : state) : option nat :=
  match o with
  | OpSet k v => (set k v s).1
  | OpGet k => (get k s).1
  | OpDelete k => (delete k s).1
  | OpClear => (clear s).1
  | OpBackingStore => None
  end.

(** The calls that reach the database: get and delete check the key
    first. *)
Definition reaches_database (o : operation) : Prop :=
  match o with
  | OpSet _ _ | OpClear => True
  | OpGet k | OpDelete k => allowedAsAKey k = true
  | OpBackingStore => False
  end.

(** ** Read-only transactions *)

(** A handler that runs on a read-only transaction only reads. *)
Definition reads_only (r : reaction) : Prop :=
  match r with
  | OnDatabase readonly (SetSteps _ _) _
  | OnDatabase readonly (DeleteSteps _) _ => False
  | _ => True
  end.

Definition reads_only_job (j : job) : Prop :=
  match j with ReactionJob r _ => reads_only r | _ => True end.

Definition readonly_clean (ts : list transaction) : Prop :=
  Forall (λ t, t_mode t = readonly → t_writes t = []) ts.

(** The handlers that run on a read-only transaction are those of get,
    and no read-only transaction holds a write. *)
Definition read_inv (s : state) : Prop :=
  settlers_ok (λ _, reads_only) reads_only_job (λ _, True) s
  ∧ readonly_clean (transactions s).

(** ** Before the first operation *)

(** No handler of a set, get or delete. *)
Definition no_operation (r : reaction) : Prop :=
  match r with OnDatabase _ _ _ => False | _ => True end.

Definition no_operation_job (j : job) : Prop :=
  match j with ReactionJob r _ => no_operation r | _ => True end.

(** No operation has been issued, and nothing has been asked of the
    engine but destructions. *)
Definition unopened (s : state) : Prop :=
  settlers_ok (λ _, no_operation) no_operation_job (λ _, True) s
  ∧ opens s = [] ∧ DatabasePromise s = None
  ∧ transactions s = [] ∧ requests s = [].

(** ** The database the requests name *)

(** The area and every request it has sent to the engine name the
    database [n]. *)
Definition addressed (n : option string) (s : state) : Prop :=
  DatabaseName s = n
  ∧ Forall (λ o, o_name o = n) (opens s)
  ∧ Forall (λ d, d_name d = n) (deletes s).

(** * Verification *)

(** ** What the handlers and the engine leave alone *)

Ltac by_cases :=
  intros; repeat (simplify_eq/=; try done; case_match); simplify_eq/=;
  try done.

Ltac open_steps :=
  unfold run_steps, set_steps, get_steps, delete_steps, transaction_promise,
    store_delete, store_put, store_get.

Ltac open_events :=
  unfold fire, open_success, open_error, delete_success, delete_error,
    transaction_complete, transaction_fail, request_success, request_error.

Lemma dispatch_cons ty res e l ls s :
  dispatch ty res e (l :: ls) s =
  dispatch ty res e ls
    (if event_type_eqb l.1 ty then run_callback res e l.2 s else s).
Proof. reflexivity. Qed.

Lemma dispatch_outside ty res e ls s :
  outside_heap (dispatch ty res e ls s) = outside_heap s
  ∧ transactions (dispatch ty res e ls s) = transactions s
  ∧ requests (dispatch ty res e ls s) = requests s.
Proof.
  revert s. induction ls as [|l ls IH]; intros s; [done|].
  rewrite dispatch_cons. destruct (IH (if event_type_eqb l.1 ty
    then run_callback res e l.2 s else s)) as (-> & -> & ->).
  destruct (event_type_eqb _ _); [|done]. by destruct l as [? []].
Qed.

Lemma run_steps_outside st t s :
  outside_heap (run_steps st t s).2 = outside_heap s
  ∧ jobs (run_steps st t s).2 = jobs s
  ∧ log (run_steps st t s).2 = log s.
Proof. destruct st; open_steps; by_cases. Qed.

Lemma slots_tick s : slots (tick s) = slots s.
Proof.
  unfold tick. destruct (jobs s) as [|[[m st d|a d|orig d|t] o|t th] js];
    simpl; try done.
  - destruct o; [|done].
    destruct (run_steps st _ _) as [c s1] eqn:E.
    pose proof (run_steps_outside st (length (transactions s))
      (add_log (LogTransaction m) (with_transactions (transactions s ++
        [Transaction m [] VNull []]) (with_jobs js s)))) as F.
    rewrite E in F. unfold outside_heap, slots in *. simpl in F.
    destruct F as (F & _ & _). destruct c; simpl; congruence.
  - by destruct o.
Qed.

Lemma slots_fire ev s : slots (fire ev s) = slots s.
Proof.
  pose proof (dispatch_outside) as D. unfold slots.
  destruct ev; open_events; by_cases;
    match goal with
    | |- context [dispatch ?ty ?res ?e ?ls ?s] =>
        destruct (D ty res e ls s) as (F & _ & _);
        unfold outside_heap in F; simpl in F; congruence
    end.
Qed.

Lemma slots_performADatabaseOperation m st s :
  is_Some (DatabaseName s) →
  slots (performADatabaseOperation m st s).2 = slots s.
Proof.
  intros [n Hn]. unfold performADatabaseOperation, slots.
  simpl. rewrite Hn. destruct (DatabasePromise s) eqn:E; simpl;
    rewrite ?E; simpl; by rewrite ?Hn.
Qed.

Lemma area_inv_slots name s s' :
  slots s' = slots s → area_inv name s → area_inv name s'.
Proof. unfold slots, area_inv. intros [= -> -> -> -> ->]. done. Qed.

Lemma area_inv_step name s a : area_inv name s → area_inv name (step s a).
Proof.
  intros I. destruct a as [o| |ev]; simpl.
  - assert (is_Some (DatabaseName s)) as HN by (destruct I as [-> _]; eauto).
    destruct o; simpl; unfold set, get, delete.
    + eapply area_inv_slots; [|done]. by apply slots_performADatabaseOperation.
    + destruct (negb _); [exact I|].
      eapply area_inv_slots; [|done]. by apply slots_performADatabaseOperation.
    + destruct (negb _); [exact I|].
      eapply area_inv_slots; [|done]. by apply slots_performADatabaseOperation.
    + unfold clear. destruct (DatabasePromise s); exact I.
    + unfold backingStore.
      destruct I as (HD & HA & HW & HP & [[HB HC]|[HB HC]]); rewrite HB; simpl.
      * split_and!; simpl; [done..|]. right. by rewrite HP, HC.
      * split_and!; auto.
  - eapply area_inv_slots; [apply slots_tick|done].
  - destruct (jobs s); [|done].
    eapply area_inv_slots; [apply slots_fire|done].
Qed.

Lemma area_inv_run name persisted tr :
  area_inv name (run tr (constructor name (host persisted))).
Proof.
  unfold run. induction tr as [|a tr IH] using rev_ind.
  - split_and!; simpl; auto.
  - rewrite foldl_app. simpl. by apply area_inv_step.
Qed.

(** C10.  On an area made by the constructor, whatever has run since, the
    stored database name is the string "kv-storage:" followed by the
    area's name, so the assertion that opens [performADatabaseOperation]
    holds: no assertion has failed, and none fails at the next entry. *)
Theorem DatabaseName_assertion_holds name persisted tr m st :
  let s := run tr (constructor name (host persisted)) in
  DatabaseName s = Some ("kv-storage:" +:+ name)
  ∧ bool_decide (is_Some (DatabaseName s)) = true
  ∧ failed_assertions s = 0
  ∧ failed_assertions (performADatabaseOperation m st s).2 = 0.
Proof.
  intros s. destruct (area_inv_run name persisted tr) as (HD & HA & _).
  fold s in HD, HA. clearbody s. split_and!; [done| |done|].
  - rewrite HD. by apply bool_decide_eq_true_2.
  - assert (is_Some (DatabaseName s)) as HS by (rewrite HD; eauto).
    pose proof (slots_performADatabaseOperation m st s HS) as F.
    unfold slots in F. congruence.
Qed.

(** C9.  The backing-store descriptor of an area is computed at most once,
    is frozen, and is the same value at every access, whatever has run in
    between (clear included); reading it leaves the handle cache, the
    promises and the engine as they were.  But it is not made from the
    area's name: the getter reads [this.#DatabaseName], a field nothing
    writes, where the constructor stored the name in the WeakMap
    [DatabaseName].  In every run the [database] of the descriptor is
    undefined, while the area's database name is "kv-storage:" followed
    by its name. *)
Theorem backingStore_database_undefined name persisted tr :
  let s := run tr (constructor name (host persisted)) in
  let s' := (backingStore s).2 in
  (backingStore s).1 = computed_descriptor
  ∧ database (backingStore s).1 = None
  ∧ DatabaseName s = Some ("kv-storage:" +:+ name)
  ∧ (backingStore s).1 ≠ descriptor_of name
  ∧ frozen (backingStore s).1 = true
  ∧ descriptor_computations s ≤ 1
  ∧ descriptor_computations s' = 1
  ∧ backingStore s' = (computed_descriptor, s')
  ∧ DatabasePromise s' = DatabasePromise s
  ∧ promises s' = promises s ∧ jobs s' = jobs s
  ∧ opens s' = opens s ∧ deletes s' = deletes s ∧ log s' = log s.
Proof.
  intros s s'.
  destruct (area_inv_run name persisted tr) as (HD & _ & _ & HN & HB).
  fold s in HD, HN, HB. subst s'. clearbody s. unfold backingStore.
  destruct HB as [[HB HC]|[HB HC]]; rewrite HB; simpl;
    rewrite ?HB, ?HN, ?HC; split_and!; done || lia.
Qed.

(** ** Lemmas on who may settle what *)

Section settlers.
Context (Pr : nat → reaction → Prop) (Pj : job → Prop) (Pc : nat → Prop).

#[local] Abbreviation heap_ok := (heap_ok Pr).
#[local] Abbreviation txs_ok := (txs_ok Pc).
#[local] Abbreviation reqs_ok := (reqs_ok Pc).
#[local] Abbreviation opens_ok := (opens_ok Pc).
#[local] Abbreviation deletes_ok := (deletes_ok Pc).
#[local] Abbreviation listeners_ok := (listeners_ok Pc).
#[local] Abbreviation settlers_ok := (settlers_ok Pr Pj Pc).

Lemma heap_ok_alloc ps st : heap_ok ps → heap_ok (ps ++ [Promise st []]).
Proof.
  intros H p pr [Hl|[_ Hl]]%lookup_app_Some; [by eapply H|].
  destruct (p - length ps) as [|n]; simplify_eq/=. constructor.
Qed.

Lemma heap_ok_settle ps p o : heap_ok ps → heap_ok (alter (settle_cell o) p ps).
Proof.
  intros H q pr. destruct (decide (p = q)) as [->|Hne].
  - rewrite list_lookup_alter_eq. destruct (ps !! q) as [pr'|] eqn:E; [|done].
    intros [= <-]. unfold settle_cell. destruct (p_state pr'); [by eapply H|].
    constructor.
  - rewrite list_lookup_alter_ne by done. apply H.
Qed.

Lemma heap_ok_attach ps p r :
  Pr p r → heap_ok ps → heap_ok (alter (attach r) p ps).
Proof.
  intros Hr H q pr. destruct (decide (p = q)) as [->|Hne].
  - rewrite list_lookup_alter_eq. destruct (ps !! q) as [pr'|] eqn:E; [|done].
    intros [= <-]. unfold attach. destruct (p_state pr'); [by eapply H|].
    simpl. apply Forall_app. split; [by eapply H|]. by constructor.
  - rewrite list_lookup_alter_ne by done. apply H.
Qed.

Lemma triggered_ok ps p o :
  (∀ r, Pr p r → Pj (ReactionJob r o)) → heap_ok ps →
  Forall Pj (triggered p o ps).
Proof.
  intros Hs H. unfold triggered, pending_reactions.
  destruct (ps !! p) as [[[?|] rs]|] eqn:E; try constructor.
  apply Forall_fmap. eapply Forall_impl; [exact (H _ _ E)|]. apply Hs.
Qed.

Lemma immediate_ok ps p r :
  (∀ o, Pj (ReactionJob r o)) → Forall Pj (immediate p r ps).
Proof.
  intros H. unfold immediate. destruct (ps !! p) as [[[?|] rs]|];
    repeat constructor. apply H.
Qed.

Lemma txs_ok_new ts m e : txs_ok ts → txs_ok (ts ++ [Transaction m [] e []]).
Proof. intros H. apply Forall_app. split; [done|]. repeat constructor. Qed.

Lemma txs_ok_write ts t w : txs_ok ts → txs_ok (alter (push_write w) t ts).
Proof. intros H. apply Forall_alter; [done|]. by intros. Qed.

Lemma txs_ok_listener ts t ty cb :
  Pc (callback_target cb) → txs_ok ts →
  txs_ok (alter (push_listener (ty, cb)) t ts).
Proof.
  intros Hc H. apply Forall_alter; [done|]. intros x _ Hx.
  apply Forall_app. split; [done|]. by constructor.
Qed.

Lemma txs_ok_lookup ts t m ws e ls :
  ts !! t = Some (Transaction m ws e ls) → txs_ok ts → listeners_ok ls.
Proof. intros Hl H. by apply (Forall_lookup_1 _ _ _ _ H Hl). Qed.

Lemma txs_ok_finish ts t m ws e e' ls :
  ts !! t = Some (Transaction m ws e ls) → txs_ok ts →
  txs_ok (<[t := Transaction m [] e' ls]> ts).
Proof.
  intros Hl H. apply Forall_insert; [done|]. by eapply txs_ok_lookup.
Qed.

Lemma reqs_ok_new rs k v e : reqs_ok rs → reqs_ok (rs ++ [Request k v e []]).
Proof. intros H. apply Forall_app. split; [done|]. repeat constructor. Qed.

Lemma reqs_ok_listener rs r ty cb :
  Pc (callback_target cb) → reqs_ok rs →
  reqs_ok (alter (push_listener_request (ty, cb)) r rs).
Proof.
  intros Hc H. apply Forall_alter; [done|]. intros x _ Hx.
  apply Forall_app. split; [done|]. by constructor.
Qed.

Lemma reqs_ok_lookup rs r k v e ls :
  rs !! r = Some (Request k v e ls) → reqs_ok rs → listeners_ok ls.
Proof. intros Hl H. by apply (Forall_lookup_1 _ _ _ _ H Hl). Qed.

Lemma reqs_ok_finish rs r k v e v' e' ls :
  rs !! r = Some (Request k v e ls) → reqs_ok rs →
  reqs_ok (<[r := Request k v' e' ls]> rs).
Proof.
  intros Hl H. apply Forall_insert; [done|]. by eapply reqs_ok_lookup.
Qed.

Lemma opens_ok_new os n p :
  Pc p → opens_ok os → opens_ok (os ++ [OpenRequest n p false]).
Proof. intros Hp H. apply Forall_app. split; [done|]. by repeat constructor. Qed.

Lemma opens_ok_fired os i n p :
  opens_ok os → opens_ok (<[i := OpenRequest n p true]> os).
Proof. intros H. by apply Forall_insert. Qed.

Lemma opens_ok_lookup os i n p :
  os !! i = Some (OpenRequest n p false) → opens_ok os → Pc p.
Proof. intros Hl H. by apply (Forall_lookup_1 _ _ _ _ H Hl). Qed.

Lemma deletes_ok_new ds n p :
  Pc p → deletes_ok ds → deletes_ok (ds ++ [DeleteRequest n p false]).
Proof. intros Hp H. apply Forall_app. split; [done|]. by repeat constructor. Qed.

Lemma deletes_ok_fired ds i n p :
  deletes_ok ds → deletes_ok (<[i := DeleteRequest n p true]> ds).
Proof. intros H. by apply Forall_insert. Qed.

Lemma deletes_ok_lookup ds i n p :
  ds !! i = Some (DeleteRequest n p false) → deletes_ok ds → Pc p.
Proof. intros Hl H. by apply (Forall_lookup_1 _ _ _ _ H Hl). Qed.

(** Settling is sound as soon as the reactions of the settled promise
    make acceptable jobs. *)
Hypothesis settle_closed : ∀ p r o, Pr p r → Pj (ReactionJob r o).

Lemma settlers_ok_settle p o s : settlers_ok s → settlers_ok (settle p o s).
Proof.
  intros (H1 & H2 & H3 & H4 & H5 & H6). split_and!; simpl; try done.
  - by apply heap_ok_settle.
  - apply Forall_app. split; [done|]. apply triggered_ok; [|done].
    intros r. apply settle_closed.
Qed.

Lemma settlers_ok_dispatch ty res e ls s :
  settlers_ok s → settlers_ok (dispatch ty res e ls s).
Proof.
  revert s. induction ls as [|l ls IH]; intros s Hs; [done|].
  rewrite dispatch_cons. apply IH. destruct (event_type_eqb _ _); [|done].
  destruct l as [? []]; by apply settlers_ok_settle.
Qed.
End settlers.

Ltac lens := simpl; rewrite ?length_alter, ?length_app, ?length_insert; simpl; lia.

(** Split a goal on who may settle what into its parts and close the
    parts the lemmas above cover; [tac] is run on the rest. *)
Ltac settlers_with tac :=
  unfold settlers_ok; simpl; split_and?;
  repeat first
    [ assumption
    | apply heap_ok_alloc | apply heap_ok_settle | apply heap_ok_attach
    | eapply triggered_ok; [|eassumption] | apply immediate_ok
    | apply txs_ok_new | apply txs_ok_write | apply txs_ok_listener
    | eapply txs_ok_finish; [eassumption|]
    | apply reqs_ok_new | apply reqs_ok_listener
    | eapply reqs_ok_finish; [eassumption|]
    | apply opens_ok_new | apply opens_ok_fired
    | apply deletes_ok_new | apply deletes_ok_fired
    | apply Forall_app; split
    | apply Forall_cons; split
    | apply Forall_nil_2 ]; tac.

Ltac settlers := settlers_with idtac.

(** ** Keys that are not allowed *)

Lemma set_steps_undefined key t s :
  run_steps (SetSteps key VUndefined) t s = run_steps (DeleteSteps key) t s.
Proof. reflexivity. Qed.

Lemma set_steps_invalid key value t s :
  allowedAsAKey key = false →
  set_steps key value t s = (Throw (VException "DataError"), s).
Proof.
  intros Hk. unfold set_steps, store_delete, store_put. rewrite Hk.
  by destruct value.
Qed.

Lemma set_handler_invalid key value d db s :
  allowedAsAKey key = false →
  run_reaction (OnDatabase readwrite (SetSteps key value) d) (Fulfilled db) s
  = settle d (Rejected (VException "DataError"))
      (database_transaction readwrite s).2.
Proof.
  intros Hk. unfold run_reaction.
  destruct (database_transaction readwrite s) as [t s1]. cbn [run_steps].
  by rewrite set_steps_invalid.
Qed.

(** C4.  [set] has no key check.  With a key that is not allowed, [get]
    and [delete] return a promise already rejected with a DataError and
    leave the handle cache and the engine untouched, while [set], whatever
    the value, starts an open, caches its promise and returns a pending
    promise; once the open succeeds a transaction is created, and only
    then does the DataError of the engine's [put] or [delete] reject the
    promise. *)
Theorem set_skips_key_check name persisted key value :
  allowedAsAKey key = false →
  let s := constructor name (host persisted) in
  let rejected := (Promise_reject (VException "DataError") s).2 in
  let s' := (set key value s).2 in
  let s'' := run [Fire (OpenSuccess 0); Tick] s' in
  get key s = (Some 0, rejected)
  ∧ delete key s = (Some 0, rejected)
  ∧ outcome_of 0 rejected = Some (Rejected (VException "DataError"))
  ∧ opens rejected = [] ∧ transactions rejected = []
  ∧ DatabasePromise rejected = None
  ∧ (set key value s).1 = Some 1
  ∧ outcome_of 1 s' = None
  ∧ opens s' = [OpenRequest (Some ("kv-storage:" +:+ name)) 0 false]
  ∧ DatabasePromise s' = Some 0
  ∧ length (transactions s'') = 1
  ∧ outcome_of 1 s'' = Some (Rejected (VException "DataError")).
Proof.
  intros Hk s rejected s' s''.
  assert (Hs : s'' =
    tick (State (Some ("kv-storage:" +:+ name)) (Some 0) None
            [Promise (Some (Fulfilled (VDatabase 0))) []; Promise None []]
            [ReactionJob (OnDatabase readwrite (SetSteps key value) 1)
               (Fulfilled (VDatabase 0))]
            [OpenRequest (Some ("kv-storage:" +:+ name)) 0 true] [] [] []
            persisted
            [LogCache None; LogCache (Some 0);
             LogOpen (Some ("kv-storage:" +:+ name)) 0; LogSettled 0] 0 0
            (Private None None)))
    by (vm_compute; reflexivity).
  unfold tick in Hs. cbn [jobs run_job] in Hs.
  rewrite set_handler_invalid in Hs by done. rewrite Hs. clear Hs s''.
  split_and!; try (vm_compute; reflexivity).
  - unfold get. by rewrite Hk.
  - unfold delete. by rewrite Hk.
Qed.

Lemma set_skips_key_check_witness :
  allowedAsAKey VUndefined = false
  ∧ outcome_of 1
      (run [Fire (OpenSuccess 0); Tick]
         (set VUndefined (VNum 1) defaultKVStorageArea).2)
    = Some (Rejected (VException "DataError")).
Proof.
  split; [reflexivity|].
  apply (set_skips_key_check "default" [] VUndefined (VNum 1)). reflexivity.
Defined.

(** C6.  With a key that is not allowed, [delete] and [set] with the
    value [undefined] part ways: [delete] returns a promise already
    rejected with a DataError and opens nothing, [set] starts an open and
    returns a pending promise. *)
Theorem delete_differs_from_set_undefined_on_invalid_key name persisted key :
  allowedAsAKey key = false →
  let s := constructor name (host persisted) in
  let d := delete key s in
  let u := set key VUndefined s in
  d.1 = Some 0 ∧ outcome_of 0 d.2 = Some (Rejected (VException "DataError"))
  ∧ opens d.2 = [] ∧ DatabasePromise d.2 = None
  ∧ u.1 = Some 1 ∧ outcome_of 1 u.2 = None
  ∧ opens u.2 = [OpenRequest (Some ("kv-storage:" +:+ name)) 0 false]
  ∧ DatabasePromise u.2 = Some 0
  ∧ d ≠ u.
Proof.
  intros Hk s d u.
  assert (Hd : d = (Some 0, (Promise_reject (VException "DataError") s).2))
    by (unfold d, delete; by rewrite Hk).
  rewrite Hd. clear Hd d.
  split_and!; try (vm_compute; reflexivity).
  intros E. apply (f_equal fst) in E. vm_compute in E. discriminate.
Qed.

Lemma delete_differs_from_set_undefined_on_invalid_key_witness :
  allowedAsAKey VUndefined = false
  ∧ delete VUndefined defaultKVStorageArea
    ≠ set VUndefined VUndefined defaultKVStorageArea.
Proof.
  split; [reflexivity|].
  apply (delete_differs_from_set_undefined_on_invalid_key "default" []
           VUndefined).
  reflexivity.
Defined.

(** ** clear after an open that fails *)

(** C3.  [clear] is called while an open is in flight; the open then
    fails and the destruction succeeds.  The promise [clear] returned is
    rejected with the error of the open: [finally] hands the outcome of
    the awaited promise on. *)
Theorem clear_rejects_after_failed_open name persisted key e :
  let s0 := (get (VStr key) (constructor name (host persisted))).2 in
  let s := run [Fire (OpenError 0 e); Tick; Tick; Tick;
                Fire (DeleteSuccess 0); Tick; Tick; Tick] (clear s0).2 in
  (clear s0).1 = Some 2
  ∧ deletes s = [DeleteRequest (Some ("kv-storage:" +:+ name)) 3 true]
  ∧ outcome_of 3 s = Some (Fulfilled VUndefined)
  ∧ contents s = []
  ∧ jobs s = []
  ∧ outcome_of 2 s = Some (Rejected e).
Proof. vm_compute. split_and!; reflexivity. Qed.

(** ** One open in flight *)

(** The head of the queue, taken apart. *)
Lemma tick_outside s :
  Forall no_clear_job (jobs s) → outside_heap (tick s) = outside_heap s.
Proof.
  unfold tick. destruct (jobs s) as [|j js]; [done|].
  intros [Hj _]%Forall_cons.
  destruct j as [[m st d|a d|orig d|t] o|t th]; simpl in *; try done.
  - destruct o; [|done].
    match goal with |- context [run_steps st ?t ?x] =>
      destruct (run_steps_outside st t x) as (F & _ & _);
      destruct (run_steps st t x) as [c s1] end.
    unfold outside_heap in *. simpl in F. by destruct c.
  - by destruct o.
Qed.

Lemma clear_free_tick s : clear_free s → clear_free (tick s).
Proof.
  unfold clear_free.
  intros (H1 & H2 & H3 & H4 & H5 & H6). unfold tick.
  destruct (jobs s) as [|j js] eqn:E; [by rewrite <- E in H2|].
  apply Forall_cons in H2 as [Hj H2].
  destruct j as [[m st d|a d|orig d|t] o|t th]; simpl in *; try done.
  - destruct o; [destruct st; open_steps; by_cases|]; settlers; done.
  - destruct o; settlers; done.
  - settlers; done.
  - settlers; done.
Qed.

Lemma clear_free_fire ev s : clear_free s → clear_free (fire ev s).
Proof.
  unfold clear_free. intros Hs.
  assert (∀ ty res e ls s', clear_free s' → clear_free (dispatch ty res e ls s'))
    as HD.
  { intros. apply settlers_ok_dispatch; [|done]. by intros ? []. }
  destruct Hs as (H1 & H2 & H3 & H4 & H5 & H6).
  destruct ev; open_events; by_cases; try (by split_and!); 
  try (apply HD); unfold clear_free; settlers; done.
Qed.

Lemma flight_new os n p :
  flight (os ++ [OpenRequest n p false]) = flight os ++ [OpenRequest n p false].
Proof. unfold flight. by rewrite List.filter_app. Qed.

Lemma flight_fired os i n p :
  os !! i = Some (OpenRequest n p false) →
  S (length (flight (<[i := OpenRequest n p true]> os))) = length (flight os).
Proof.
  revert i. induction os as [|o os IH]; intros [|i] Hl; simplify_eq/=; [done|].
  destruct (negb (o_fired o)); simpl; by rewrite (IH i).
Qed.

Lemma flight_inv_same s s' :
  opens s' = opens s → DatabasePromise s' = DatabasePromise s →
  flight_inv s → flight_inv s'.
Proof. unfold flight_inv, open_in_flight. by intros -> ->. Qed.

Lemma flight_inv_fired s s' i n p :
  opens s !! i = Some (OpenRequest n p false) →
  opens s' = <[i := OpenRequest n p true]> (opens s) →
  flight_inv s → flight_inv s'.
Proof.
  unfold flight_inv, open_in_flight. intros Hl -> H. pose proof (flight_fired _ _ _ _ Hl) as L.
  destruct (flight (opens s)) as [|o [|o' os]]; simpl in *;
    [discriminate| |done].
  destruct (flight (<[_:=_]> _)); [done|discriminate].
Qed.

Lemma performADatabaseOperation_eq m st s :
  performADatabaseOperation m st s =
  let s0 := console_assert (bool_decide (is_Some (DatabaseName s))) s in
  let r := match DatabasePromise s with
           | Some p => then_ p (OnDatabase m st) s0
           | None =>
               then_ (length (promises s)) (OnDatabase m st)
                 (initializeTheDatabasePromise s0)
           end in
  (Some r.1, r.2).
Proof.
  unfold performADatabaseOperation. simpl.
  destruct (DatabasePromise s) as [p|] eqn:E; simpl; by rewrite ?E.
Qed.

Lemma one_open_perform m st s :
  one_open s → one_open (performADatabaseOperation m st s).2.
Proof.
  intros [(H1 & H2 & H3 & H4 & H5 & H6) Hf].
  rewrite performADatabaseOperation_eq.
  destruct (DatabasePromise s) as [p|] eqn:E; simpl.
  - split; [unfold clear_free; settlers; done|].
    by eapply flight_inv_same.
  - split; [unfold clear_free; settlers; done|].
    unfold flight_inv, open_in_flight in *. simpl. rewrite flight_new.
    destruct (flight (opens s)) as [|o [|o' os]]; by simplify_eq/=.
Qed.

Lemma one_open_reject e s : one_open s → one_open (Promise_reject e s).2.
Proof.
  intros [(H1 & H2 & H3 & H4 & H5 & H6) Hf].
  split; [unfold clear_free; settlers; done|done].
Qed.

Lemma one_open_step s a : a ≠ Call OpClear → one_open s → one_open (step s a).
Proof.
  intros Ha [Hc Hf]. destruct a as [o| |ev]; simpl.
  - destruct o; try done; unfold call.
    + by apply one_open_perform.
    + unfold get. destruct (negb _); [by apply one_open_reject|].
      by apply one_open_perform.
    + unfold delete. destruct (negb _); [by apply one_open_reject|].
      by apply one_open_perform.
    + unfold backingStore. destruct (private_BackingStoreObject (private s));
        (split; [exact Hc|exact Hf]).
  - split; [by apply clear_free_tick|].
    destruct Hc as (_ & Hj & _). pose proof (tick_outside s Hj) as F.
    unfold outside_heap in F. simplify_eq. by eapply flight_inv_same.
  - destruct (jobs s) eqn:E; [|done].
    split; [by apply clear_free_fire|].
    pose proof dispatch_outside as D.
    destruct ev; open_events; by_cases;
      try match goal with
      | |- context [dispatch ?ty ?res ?e ?ls ?s] =>
          destruct (D ty res e ls s) as (F & _ & _);
          unfold outside_heap in F; simpl in F; simplify_eq
      end;
      try (eapply flight_inv_same; [| |done]; simpl; congruence);
      try (eapply flight_inv_fired; [eassumption| |done]; simpl; congruence).
Qed.

Lemma one_open_run name persisted tr :
  Forall (λ a, a ≠ Call OpClear) tr →
  one_open (run tr (constructor name (host persisted))).
Proof.
  unfold run. induction tr as [|a tr IH] using rev_ind; intros Htr.
  - split; [|done]. repeat split; simpl; try by constructor.
    by intros [] ?.
  - apply Forall_app in Htr as [Htr [Ha _]%Forall_cons].
    rewrite foldl_app. simpl. apply one_open_step; auto.
Qed.

(** C1.  On an area on which only get, set and delete are called, in any
    order and interleaved in any way with the microtasks and the engine's
    events, at most one open is in flight, and it is the one whose promise
    is cached.  [performADatabaseOperation] starts an open only when the
    cached promise is null; otherwise it attaches its handler to the
    cached promise and the engine sees no second open. *)
Theorem single_open_in_flight name persisted tr m st :
  Forall (λ a, a ≠ Call OpClear) tr →
  let s := run tr (constructor name (host persisted)) in
  let s' := (performADatabaseOperation m st s).2 in
  length (open_in_flight s) ≤ 1
  ∧ (∀ o, o ∈ open_in_flight s → DatabasePromise s = Some (o_promise o))
  ∧ match DatabasePromise s with
    | None =>
        open_in_flight s = []
        ∧ opens s' = opens s
            ++ [OpenRequest (DatabaseName s) (length (promises s)) false]
        ∧ DatabasePromise s' = Some (length (promises s))
    | Some p =>
        opens s' = opens s ∧ log s' = log s ∧ DatabasePromise s' = Some p
        ∧ promises s'
          = alter (attach (OnDatabase m st (length (promises s)))) p
              (promises s ++ [Promise None []])
    end.
Proof.
  intros Htr s s'. destruct (one_open_run name persisted tr Htr) as [_ Hf].
  fold s in Hf. subst s'. clearbody s. unfold flight_inv in Hf.
  rewrite performADatabaseOperation_eq.
  destruct (open_in_flight s) as [|o [|o' os]] eqn:E; [| |done].
  - split_and!; [simpl; lia|by intros ? ?%elem_of_nil|].
    destruct (DatabasePromise s) eqn:EC; simpl; rewrite ?EC; by split_and!.
  - split_and!; [simpl; lia|by intros ? ->%list_elem_of_singleton|].
    rewrite Hf. simpl. rewrite ?Hf. by split_and!.
Qed.

Lemma single_open_in_flight_witness :
  let tr := [Call (OpGet (VStr "a")); Call (OpSet (VStr "b") (VNum 1));
             Tick; Call (OpDelete (VStr "a")); Fire (OpenSuccess 0); Tick] in
  Forall (λ a, a ≠ Call OpClear) tr
  ∧ length (open_in_flight (run tr defaultKVStorageArea)) ≤ 1.
Proof.
  assert (Forall (λ a, a ≠ Call OpClear)
    [Call (OpGet (VStr "a")); Call (OpSet (VStr "b") (VNum 1));
     Tick; Call (OpDelete (VStr "a")); Fire (OpenSuccess 0); Tick]) as H
    by (repeat constructor; discriminate).
  split; [exact H|].
  exact (proj1 (single_open_in_flight "default" [] _ readonly
                  (GetSteps VNull) H)).
Defined.

(** ** clear waits, invalidates, destroys *)

Lemma ordered_snoc L e :
  ordered L →
  (∀ n a, e = LogDeleteDatabase n (Some a) →
     LogSettled a ∈ L ∧ last L = Some (LogCache None)) →
  ordered (L ++ [e]).
Proof.
  intros HL He l1 l2 n a E.
  destruct l2 as [|x l2 _] using rev_ind.
  - apply (app_inj_tail L l1) in E as [-> ->]. by eapply He.
  - rewrite app_comm_cons, app_assoc in E.
    apply app_inj_tail in E as [-> _]. by eapply HL.
Qed.

Lemma awaited_logged_mono L es j :
  awaited_logged L j → awaited_logged (L ++ es) j.
Proof. intros H a d o E. apply elem_of_app. left. by eapply H. Qed.

Lemma settled_logged_mono ps L es :
  settled_logged ps L → settled_logged ps (L ++ es).
Proof. intros H p pr o E1 E2. apply elem_of_app. left. by eapply H. Qed.

Lemma ordered_heap_log ps js L e : plain e → ordered_heap ps js L → ordered_heap ps js (L ++ [e]).
Proof.
  intros He (H1 & H2 & H3 & H4). split_and!; [done| | |].
  - eapply Forall_impl; [done|]. intros. by apply awaited_logged_mono.
  - by apply settled_logged_mono.
  - apply ordered_snoc; [done|]. intros n a ->. by destruct (He n a).
Qed.

Lemma ordered_heap_alloc ps js L :
  ordered_heap ps js L → ordered_heap (ps ++ [Promise None []]) js L.
Proof.
  intros (H1 & H2 & H3 & H4). split_and!; [by apply heap_ok_alloc|done| |done].
  intros p pr o [Hl|[_ Hl]]%lookup_app_Some E; [by eapply H3|].
  destruct (p - length ps); by simplify_eq/=.
Qed.

Lemma ordered_heap_reject ps js L e :
  ordered_heap ps js L →
  ordered_heap (ps ++ [Promise (Some (Rejected e)) []]) js
    (L ++ [LogSettled (length ps)]).
Proof.
  intros (H1 & H2 & H3 & H4). split_and!.
  - by apply heap_ok_alloc.
  - eapply Forall_impl; [done|]. intros. by apply awaited_logged_mono.
  - intros p pr o [Hl|[Hp Hl]]%lookup_app_Some E; apply elem_of_app.
    + left. by eapply H3.
    + right. destruct (p - length ps) eqn:Ep; simplify_eq/=.
      replace p with (length ps) by lia. apply list_elem_of_singleton. done.
  - by apply ordered_snoc.
Qed.

Lemma ordered_heap_pop ps j js L : ordered_heap ps (j :: js) L → ordered_heap ps js L.
Proof. intros (H1 & [_ H2]%Forall_cons & H3 & H4). by split_and!. Qed.

Lemma ordered_heap_head ps j js L : ordered_heap ps (j :: js) L → awaited_logged L j.
Proof. by intros (H1 & [? H2]%Forall_cons & H3 & H4). Qed.

Lemma ordered_heap_push ps js L j :
  awaited_logged L j → ordered_heap ps js L → ordered_heap ps (js ++ [j]) L.
Proof.
  intros Hj (H1 & H2 & H3 & H4). split_and!; try done.
  apply Forall_app. split; [done|]. by constructor.
Qed.

Lemma ordered_heap_settle ps js L p o :
  ordered_heap ps js L →
  ordered_heap (alter (settle_cell o) p ps) (js ++ triggered p o ps)
    (L ++ settled_now p ps).
Proof.
  intros (H1 & H2 & H3 & H4). split_and!.
  - by apply heap_ok_settle.
  - apply Forall_app. split.
    + eapply Forall_impl; [done|]. intros. by apply awaited_logged_mono.
    + unfold triggered, settled_now, pending_reactions.
      destruct (ps !! p) as [[[?|] rs]|] eqn:E; try constructor.
      apply Forall_fmap. eapply Forall_impl; [exact (H1 _ _ E)|].
      intros r Hr a d o' [= -> ->]. rewrite (Hr a d eq_refl).
      apply elem_of_app. right. by apply list_elem_of_singleton.
  - intros q pr o'. destruct (decide (p = q)) as [->|Hne].
    + rewrite list_lookup_alter_eq. unfold settled_now, pending_reactions.
      destruct (ps !! q) as [[[?|] rs]|] eqn:E; intros; simplify_eq/=.
      * apply elem_of_app. left. by eapply H3.
      * apply elem_of_app. right. by apply list_elem_of_singleton.
    + rewrite list_lookup_alter_ne by done. intros.
      apply elem_of_app. left. by eapply H3.
  - unfold settled_now. destruct (pending_reactions p ps).
    + by apply ordered_snoc.
    + by rewrite app_nil_r.
Qed.

Lemma ordered_heap_then ps js L p r :
  awaits_host p r → ordered_heap ps js L →
  ordered_heap (alter (attach r) p ps) (js ++ immediate p r ps) L.
Proof.
  intros Hr (H1 & H2 & H3 & H4). split_and!; [by apply heap_ok_attach| | |done].
  - apply Forall_app. split; [done|]. unfold immediate.
    destruct (ps !! p) as [[[o|] rs]|] eqn:E; repeat constructor.
    intros a d o' [= -> ->]. rewrite (Hr a d eq_refl). by eapply H3.
  - intros q pr o. destruct (decide (p = q)) as [->|Hne].
    + rewrite list_lookup_alter_eq.
      destruct (ps !! q) as [[[?|] rs]|] eqn:E; intros; simplify_eq/=.
      by eapply H3.
    + rewrite list_lookup_alter_ne by done. by eapply H3.
Qed.

Lemma ordered_heap_destroy ps js L n a :
  LogSettled a ∈ L → ordered_heap ps js L →
  ordered_heap ps js ((L ++ [LogCache None]) ++ [LogDeleteDatabase n (Some a)]).
Proof.
  intros Ha (H1 & H2 & H3 & H4). split_and!; [done| | |].
  - eapply Forall_impl; [done|]. intros.
    by do 2 apply awaited_logged_mono.
  - by do 2 apply settled_logged_mono.
  - apply ordered_snoc; [by apply ordered_snoc|]. intros ? ? [= -> ->].
    split; [apply elem_of_app; by left|]. by rewrite last_snoc.
Qed.

Lemma clear_order_settle p o s : clear_order s → clear_order (settle p o s).
Proof. apply ordered_heap_settle. Qed.

Lemma clear_order_dispatch ty res e ls s : clear_order s → clear_order (dispatch ty res e ls s).
Proof.
  revert s. induction ls as [|l ls IH]; intros s Hs; [done|].
  rewrite dispatch_cons. apply IH. destruct (event_type_eqb _ _); [|done].
  destruct l as [? []]; by apply clear_order_settle.
Qed.

Ltac clear_order_chain :=
  unfold clear_order in *; simpl;
  repeat first
    [ assumption
    | apply ordered_heap_settle
    | eapply ordered_heap_pop; eassumption
    | apply ordered_heap_destroy
    | apply ordered_heap_then; [by intros ? ? [=]|]
    | apply ordered_heap_then; [by intros ? ? [= -> ->]|]
    | apply ordered_heap_push; [by intros ? ? ? [=]|]
    | apply ordered_heap_alloc
    | apply ordered_heap_reject
    | apply ordered_heap_log; [by intros ? ? [=]|] ].

Lemma clear_order_tick s : clear_order s → clear_order (tick s).
Proof.
  intros H. unfold tick. destruct (jobs s) as [|j js] eqn:E; [done|].
  unfold clear_order in H. rewrite E in H. pose proof (ordered_heap_head _ _ _ _ H) as Hj.
  destruct j as [[m st d|a d|orig d|t] o|t th]; simpl.
  - destruct o; [destruct st; open_steps; by_cases|]; clear_order_chain.
  - clear_order_chain. by eapply Hj.
  - destruct o; clear_order_chain.
  - clear_order_chain.
  - clear_order_chain.
Qed.

Lemma clear_order_fire ev s : clear_order s → clear_order (fire ev s).
Proof.
  intros H. pose proof clear_order_dispatch as D.
  destruct ev; open_events; by_cases; try apply D; clear_order_chain.
Qed.

Lemma clear_order_call o s : clear_order s → clear_order (call o s).
Proof.
  intros H. destruct o; unfold call, set, get, delete;
    rewrite ?performADatabaseOperation_eq.
  - destruct (DatabasePromise s); clear_order_chain.
  - destruct (negb _); [|destruct (DatabasePromise s)]; clear_order_chain.
  - destruct (negb _); [|destruct (DatabasePromise s)]; clear_order_chain.
  - unfold clear. destruct (DatabasePromise s); clear_order_chain.
  - unfold backingStore. destruct (private_BackingStoreObject (private s));
      clear_order_chain.
Qed.

Lemma clear_order_run name persisted tr :
  clear_order (run tr (constructor name (host persisted))).
Proof.
  unfold run. induction tr as [|a tr IH] using rev_ind.
  - split_and!; simpl; [by intros [] ?|done|by intros [] ?|].
    intros [|? [|? ?]] ? ? ? ?; by simplify_eq/=.
  - rewrite foldl_app. simpl. destruct a as [o| |ev]; simpl.
    + by apply clear_order_call.
    + by apply clear_order_tick.
    + destruct (jobs _); [by apply clear_order_fire|done].
Qed.

(** C2.  A clear called on a cached open promise [p] issues nothing
    itself: it attaches its handler to [p].  In every run, a destruction
    issued by such a handler comes after the settlement of [p], and the
    entry just before it is the write of null to the cache; the handler
    does both, in that order, when it runs. *)
Theorem clear_waits_invalidates_destroys name persisted tr :
  let s := run tr (constructor name (host persisted)) in
  (∀ p, DatabasePromise s = Some p →
     (clear s).2
     = perform_then p (OnFinallyClear p (length (promises s)))
         (new_promise None s).2
     ∧ log (clear s).2 = log s ∧ deletes (clear s).2 = deletes s
     ∧ DatabasePromise (clear s).2 = Some p)
  ∧ (∀ l1 l2 n a,
       log s = l1 ++ LogDeleteDatabase n (Some a) :: l2 →
       LogSettled a ∈ l1 ∧ last l1 = Some (LogCache None))
  ∧ (∀ a d o s0,
       let s1 := run_reaction (OnFinallyClear a d) o s0 in
       log s1 = log s0 ++ [LogCache None;
                           LogDeleteDatabase (DatabaseName s0) (Some a)]
       ∧ DatabasePromise s1 = None).
Proof.
  intros s. split_and!.
  - intros p E. unfold clear. rewrite E. by split_and!.
  - apply (clear_order_run name persisted tr).
  - intros. subst s1. simpl. by rewrite <- app_assoc.
Qed.

Lemma clear_waits_invalidates_destroys_witness :
  let s := run [Call (OpGet (VStr "k")); Call OpClear; Fire (OpenSuccess 0);
                Tick; Tick; Tick] defaultKVStorageArea in
  let l1 := [LogCache None; LogCache (Some 0);
             LogOpen (Some "kv-storage:default") 0; LogSettled 0;
             LogTransaction readonly; LogCache None] in
  log s = l1 ++ LogDeleteDatabase (Some "kv-storage:default") (Some 0) :: []
  ∧ LogSettled 0 ∈ l1 ∧ last l1 = Some (LogCache None).
Proof.
  split; [vm_compute; reflexivity|].
  refine (proj1 (proj2 (clear_waits_invalidates_destroys "default" []
    [Call (OpGet (VStr "k")); Call OpClear; Fire (OpenSuccess 0);
     Tick; Tick; Tick])) _ [] _ _ _).
  vm_compute; reflexivity.
Defined.

(** ** After a clear *)

Lemma settlers_ok_mono Pr Pj Pc Pr' Pj' Pc' s :
  (∀ p r, Pr p r → Pr' p r) → (∀ j, Pj j → Pj' j) → (∀ p, Pc p → Pc' p) →
  settlers_ok Pr Pj Pc s → settlers_ok Pr' Pj' Pc' s.
Proof.
  intros Hr Hj Hc (H1 & H2 & H3 & H4 & H5 & H6). split_and!.
  - intros p pr E. eapply Forall_impl; [by eapply H1|]. apply Hr.
  - by eapply Forall_impl.
  - eapply Forall_impl; [done|]. intros t Ht.
    eapply Forall_impl; [exact Ht|]. intros l. apply Hc.
  - eapply Forall_impl; [done|]. intros t Ht.
    eapply Forall_impl; [exact Ht|]. intros l. apply Hc.
  - eapply Forall_impl; [done|]. intros o Ho ?. by apply Hc, Ho.
  - eapply Forall_impl; [done|]. intros o Ho ?. by apply Hc, Ho.
Qed.

Lemma bounded_mono n n' s : n ≤ n' → bounded n s → bounded n' s.
Proof. intros Hn. apply settlers_ok_mono; intros; simpl in *; lia. Qed.

(** Bring the bound of the hypothesis up to the bound of the goal. *)
Ltac rebound H :=
  match goal with
  | |- bounded ?n _ =>
      apply (bounded_mono _ n) in H; [|lens];
      destruct H as (?H & ?H & ?H & ?H & ?H & ?H); unfold bounded
  end.

Lemma bounded_dispatch n ty res e ls s :
  bounded n s → bounded n (dispatch ty res e ls s).
Proof. apply settlers_ok_dispatch. by intros. Qed.

Lemma dispatch_length ty res e ls s :
  length (promises (dispatch ty res e ls s)) = length (promises s).
Proof.
  revert s. induction ls as [|l ls IH]; intros s; [done|].
  rewrite dispatch_cons, IH. destruct (event_type_eqb _ _); [|done].
  destruct l as [? []]; simpl; by rewrite length_alter.
Qed.

Lemma wf_tick s : wf s → wf (tick s).
Proof.
  unfold wf, tick. intros H.
  destruct (jobs s) as [|j js] eqn:E; [done|].
  assert (job_target j < length (promises s)) as Hj.
  { destruct H as (_ & H & _). rewrite E in H. by apply Forall_cons in H as [? _]. }
  assert (bounded (length (promises s)) (with_jobs js s)) as H'.
  { destruct H as (H1 & H2 & H3 & H4 & H5 & H6). rewrite E in H2.
    apply Forall_cons in H2 as [_ H2]. by split_and!. }
  clear H.
  destruct j as [[m st d|a d|orig d|t] o|t th]; simpl in *.
  - destruct o; [destruct st; open_steps; by_cases|]; rebound H';
      settlers_with ltac:(try done; simpl; try lens).
  - rebound H'; settlers_with ltac:(try done; simpl; try lens).
  - destruct o; rebound H'; settlers_with ltac:(try done; simpl; try lens).
  - rebound H'; settlers_with ltac:(try done; simpl; try lens).
  - rebound H'; settlers_with ltac:(try done; simpl; try lens).
Qed.

Lemma wf_fire ev s : wf s → wf (fire ev s).
Proof.
  unfold wf. intros H.
  destruct ev; open_events; by_cases; rewrite ?dispatch_length;
    try apply bounded_dispatch; rebound H;
    settlers_with ltac:(try done; simpl; try lens).
Qed.

Lemma wf_call o s : wf s → wf (call o s).
Proof.
  unfold wf. intros H. destruct o; unfold call, set, get, delete, clear, backingStore;
    rewrite ?performADatabaseOperation_eq; by_cases; rebound H;
    settlers_with ltac:(try done; simpl; try lens).
Qed.

Lemma wf_run name persisted tr : wf (run tr (constructor name (host persisted))).
Proof.
  unfold run. induction tr as [|a tr IH] using rev_ind.
  - repeat split; simpl; try by constructor. by intros [] ?.
  - rewrite foldl_app. simpl. destruct a as [o| |ev]; simpl.
    + by apply wf_call.
    + by apply wf_tick.
    + destruct (jobs _); [by apply wf_fire|done].
Qed.

Lemma pending_lt r0 ps : pending r0 ps → r0 < length ps.
Proof. intros [rs E]. by eapply lookup_lt_Some. Qed.

Lemma pending_alloc r0 ps x : pending r0 ps → pending r0 (ps ++ [x]).
Proof. intros [rs E]. exists rs. by apply lookup_app_l_Some. Qed.

Lemma pending_settle_ne r0 ps p o :
  p ≠ r0 → pending r0 ps → pending r0 (alter (settle_cell o) p ps).
Proof. intros Hne [rs E]. exists rs. by rewrite list_lookup_alter_ne. Qed.

Lemma pending_attach r0 ps p r :
  pending r0 ps → pending r0 (alter (attach r) p ps).
Proof.
  intros [rs E]. destruct (decide (p = r0)) as [->|Hne].
  - exists (rs ++ [r]). by rewrite list_lookup_alter_eq, E.
  - exists rs. by rewrite list_lookup_alter_ne.
Qed.

Lemma pending_outcome r0 s : pending r0 (promises s) → outcome_of r0 s = None.
Proof. intros [rs E]. unfold outcome_of. by rewrite E. Qed.

Lemma waiting_settle r0 p o s :
  p ≠ r0 → waiting r0 s → waiting r0 (settle p o s).
Proof.
  intros Hne [Hp Hq]. split; [by apply pending_settle_ne|].
  apply settlers_ok_settle; [|done]. by intros.
Qed.

Lemma waiting_dispatch r0 ty res e ls s :
  listeners_ok (λ p, p ≠ r0) ls → waiting r0 s →
  waiting r0 (dispatch ty res e ls s).
Proof.
  revert s. induction ls as [|l ls IH]; intros s Hl Hs; [done|].
  rewrite dispatch_cons. apply Forall_cons in Hl as [Hc Hl].
  apply IH; [done|]. destruct (event_type_eqb _ _); [|done].
  destruct l as [? []]; by apply waiting_settle.
Qed.

Ltac pend :=
  simpl;
  repeat first
    [ assumption | apply pending_alloc | apply pending_attach
    | apply pending_settle_ne; [try done; try lens|] ].

Ltac side :=
  try done; simpl; try tauto; try lia; try (left; lia); try lens;
  try (left; lens).

Lemma waiting_tick r0 s :
  waiting r0 s → waiting r0 (tick s) ∨ DatabasePromise (tick s) = None.
Proof.
  intros [Hp (H1 & H2 & H3 & H4 & H5 & H6)]. unfold tick.
  pose proof (pending_lt _ _ Hp) as Hlt.
  destruct (jobs s) as [|j js] eqn:E; [left; by rewrite <- E in H2|].
  apply Forall_cons in H2 as [Hj H2].
  destruct j as [[m st d|a d|orig d|t] o|t th]; simpl in *;
    try (by right); left; destruct Hj as [Hj|[]].
  - destruct o; [destruct st; open_steps; by_cases|];
      (split; [pend|unfold quiet; settlers_with side]).
  - destruct o; (split; [pend|unfold quiet; settlers_with side]).
  - split; [pend|unfold quiet; settlers_with side].
  - split; [pend|unfold quiet; settlers_with side].
Qed.

Lemma waiting_fire r0 ev s :
  waiting r0 s → waiting r0 (fire ev s) ∨ DatabasePromise (fire ev s) = None.
Proof.
  intros [Hp (H1 & H2 & H3 & H4 & H5 & H6)].
  pose proof (pending_lt _ _ Hp) as Hlt.
  destruct ev; open_events; by_cases; try (by right); left;
    try (by split; [|split_and!]);
    try match goal with
    | H : opens s !! _ = Some _ |- _ =>
        pose proof (opens_ok_lookup _ _ _ _ _ H H5)
    | H : deletes s !! _ = Some _ |- _ =>
        pose proof (deletes_ok_lookup _ _ _ _ _ H H6)
    | H : transactions s !! _ = Some _ |- _ =>
        pose proof (txs_ok_lookup _ _ _ _ _ _ _ H H3)
    | H : requests s !! _ = Some _ |- _ =>
        pose proof (reqs_ok_lookup _ _ _ _ _ _ _ H H4)
    end.
  all: try (apply waiting_dispatch; [done|]).
  all: try (split; [pend|unfold quiet; settlers_with side]).
Qed.

Lemma cache_tick s :
  DatabasePromise (tick s) = DatabasePromise s
  ∨ DatabasePromise (tick s) = None.
Proof.
  unfold tick. destruct (jobs s) as [|j js]; [by left|].
  destruct j as [[m st d|a d|orig d|t] o|t th]; simpl; auto.
  - destruct o; [|by left].
    match goal with |- context [run_steps st ?t ?x] =>
      destruct (run_steps_outside st t x) as (F & _ & _);
      destruct (run_steps st t x) as [c s1] end.
    unfold outside_heap in F. simplify_eq/=. left. by destruct c.
  - left. by destruct o.
Qed.

Lemma cache_fire ev s :
  DatabasePromise (fire ev s) = DatabasePromise s
  ∨ DatabasePromise (fire ev s) = None.
Proof.
  pose proof dispatch_outside as D.
  destruct ev; open_events; by_cases; auto;
    match goal with
    | |- context [dispatch ?ty ?res ?e ?ls ?s] =>
        destruct (D ty res e ls s) as (F & _ & _);
        unfold outside_heap in F; simplify_eq/=; by left
    end.
Qed.

Lemma cleared_step r0 s a :
  quiet_action a → cleared r0 s → cleared r0 (step s a).
Proof.
  intros Ha [Hc|Hw].
  - left. destruct a as [[]| |ev]; simpl in *; try done.
    + unfold clear. by rewrite Hc.
    + unfold backingStore. by destruct (private_BackingStoreObject (private s)).
    + destruct (cache_tick s); congruence.
    + destruct (jobs s); [|done]. destruct (cache_fire ev s); congruence.
  - destruct a as [[]| |ev]; simpl in *; try done.
    + right. destruct Hw as [Hp (H1 & H2 & H3 & H4 & H5 & H6)].
      pose proof (pending_lt _ _ Hp) as Hlt. unfold clear.
      destruct (DatabasePromise s); simpl;
        (split; [pend|unfold quiet; settlers_with side]).
    + right. unfold backingStore.
      by destruct (private_BackingStoreObject (private s)).
    + destruct (waiting_tick r0 s Hw); [by right|by left].
    + destruct (jobs s); [|by right].
      destruct (waiting_fire r0 ev s Hw); [by right|by left].
Qed.

Lemma cleared_run r0 s tr :
  Forall quiet_action tr → cleared r0 s → cleared r0 (run tr s).
Proof.
  unfold run. revert s. induction tr as [|a tr IH]; intros s Htr Hs; [done|].
  apply Forall_cons in Htr as [Ha Htr]. simpl. apply IH; [done|].
  by apply cleared_step.
Qed.

Lemma cleared_clear s r : wf s → (clear s).1 = Some r → cleared r (clear s).2.
Proof.
  intros Hwf. unfold clear.
  destruct (DatabasePromise s) as [p|] eqn:E; simpl; intros [= <-];
    [right|by left].
  assert (quiet (length (promises s)) s) as (H1 & H2 & H3 & H4 & H5 & H6).
  { eapply settlers_ok_mono; [..|exact Hwf]; simpl; intros; lia. }
  split.
  - simpl. apply pending_attach. exists [].
    by apply list_lookup_middle.
  - unfold quiet; settlers_with side.
Qed.

(** C5, as amended.  When no get, set or delete is issued between the
    call of clear and the settlement of the promise it returned, the
    cached database promise is null once that promise has settled, and
    the next [performADatabaseOperation] starts a fresh open on a new
    pending promise and caches it. *)
Theorem clear_then_fresh_open name persisted tr tr' r m st :
  let s := run tr (constructor name (host persisted)) in
  (clear s).1 = Some r →
  Forall quiet_action tr' →
  let s' := run tr' (clear s).2 in
  is_Some (outcome_of r s') →
  let s'' := (performADatabaseOperation m st s').2 in
  DatabasePromise s' = None
  ∧ opens s''
    = opens s' ++ [OpenRequest (DatabaseName s') (length (promises s')) false]
  ∧ DatabasePromise s'' = Some (length (promises s'))
  ∧ outcome_of (length (promises s')) s'' = None.
Proof.
  intros s Hr Htr s' Hdone s''.
  assert (DatabasePromise s' = None) as Hc.
  { destruct (cleared_run r _ tr' Htr
      (cleared_clear s r (wf_run name persisted tr) Hr)) as [Hc|[Hp _]];
      [done|]. apply pending_outcome in Hp. fold s' in Hp.
    rewrite Hp in Hdone. by destruct Hdone. }
  subst s''. rewrite performADatabaseOperation_eq, Hc. simpl.
  split_and!; try done. unfold outcome_of. simpl.
  rewrite list_lookup_alter_eq.
  rewrite lookup_app_l by (rewrite length_app; simpl; lia).
  by rewrite list_lookup_middle.
Qed.

Lemma clear_then_fresh_open_witness :
  let s := run [Call (OpSet (VStr "a") (VNum 1)); Fire (OpenSuccess 0); Tick;
                Tick; Fire (TransactionComplete 0); Tick]
             defaultKVStorageArea in
  let tr' := [Tick; Tick; Fire (DeleteSuccess 0); Tick; Tick] in
  (clear s).1 = Some 3
  ∧ Forall quiet_action tr'
  ∧ is_Some (outcome_of 3 (run tr' (clear s).2))
  ∧ DatabasePromise (run tr' (clear s).2) = None.
Proof.
  assert (Forall quiet_action
    [Tick; Tick; Fire (DeleteSuccess 0); Tick; Tick]) as H
    by (repeat constructor).
  split_and!; [vm_compute; reflexivity|exact H|vm_compute; eauto|].
  refine (proj1 (clear_then_fresh_open "default" [] _ _ 3 readonly
                   (GetSteps VNull) _ H _)); [vm_compute; reflexivity|].
  vm_compute. eauto.
Defined.

(** C5, as stated, fails: a get issued while the destruction started by
    clear is under way opens the database again, so when the promise of
    clear settles the cache holds the promise of that open, and the next
    operation attaches to it without opening. *)
Lemma clear_completes_with_cache_set :
  let s := constructor "a" (host []) in
  let s' := run [Call (OpGet (VStr "k")); Fire (DeleteSuccess 0)] (clear s).2 in
  (clear s).1 = Some 0
  ∧ outcome_of 0 s' = Some (Fulfilled VUndefined)
  ∧ DatabasePromise s' = Some 1
  ∧ DatabasePromise s' ≠ None
  ∧ opens (performADatabaseOperation readonly (GetSteps (VStr "k")) s').2
    = opens s'.
Proof. vm_compute. split_and!; try reflexivity. discriminate. Qed.

(** ** Settled once, by the terminal event *)

Lemma extends_refl ps : extends ps ps.
Proof. by intros ? ?. Qed.

Lemma extends_trans ps1 ps2 ps3 :
  extends ps1 ps2 → extends ps2 ps3 → extends ps1 ps3.
Proof. intros H1 H2 p o E. by apply H2, H1. Qed.

Lemma extends_alloc ps l : extends ps (ps ++ l).
Proof.
  intros p o E. destruct (ps !! p) as [pr|] eqn:El; [|done].
  by rewrite (lookup_app_l_Some _ _ _ _ El).
Qed.

Lemma extends_settle ps p o : extends ps (alter (settle_cell o) p ps).
Proof.
  intros q o' E. destruct (decide (p = q)) as [->|Hne].
  - rewrite list_lookup_alter_eq. destruct (ps !! q) as [[[?|] ?]|]; by simplify_eq/=.
  - by rewrite list_lookup_alter_ne.
Qed.

Lemma extends_attach ps p r : extends ps (alter (attach r) p ps).
Proof.
  intros q o' E. destruct (decide (p = q)) as [->|Hne].
  - rewrite list_lookup_alter_eq. destruct (ps !! q) as [[[?|] ?]|]; by simplify_eq/=.
  - by rewrite list_lookup_alter_ne.
Qed.

Lemma extends_dispatch ty res e ls s :
  extends (promises s) (promises (dispatch ty res e ls s)).
Proof.
  revert s. induction ls as [|l ls IH]; intros s; [apply extends_refl|].
  rewrite dispatch_cons. eapply extends_trans; [|apply IH].
  destruct (event_type_eqb _ _); [|apply extends_refl].
  destruct l as [? []]; apply extends_settle.
Qed.

Ltac ext :=
  simpl;
  repeat first
    [ apply extends_refl
    | eapply extends_trans; [|apply extends_settle]
    | eapply extends_trans; [|apply extends_attach]
    | eapply extends_trans; [|apply extends_alloc]
    | eapply extends_trans; [|apply extends_dispatch]; simpl ].

Lemma extends_step s a : extends (promises s) (promises (step s a)).
Proof.
  destruct a as [o| |ev]; simpl.
  - destruct o; unfold call, set, get, delete, clear, backingStore;
      rewrite ?performADatabaseOperation_eq; by_cases; ext.
  - unfold tick. destruct (jobs s) as [|[[m st d|a d|orig d|t] o|t th] js];
      simpl; try (destruct o); try (destruct st; open_steps; by_cases); ext.
  - destruct (jobs s); [|apply extends_refl].
    destruct ev; open_events; by_cases; ext.
Qed.

Lemma settled_stays p o tr s :
  outcome_of p s = Some o → outcome_of p (run tr s) = Some o.
Proof.
  unfold run. revert s. induction tr as [|a tr IH]; intros s E; [done|].
  simpl. apply IH. by apply extends_step.
Qed.

Lemma alter_snoc {A} (f : A → A) (l : list A) (x : A) :
  alter f (length l) (l ++ [x]) = l ++ [f x].
Proof.
  rewrite alter_app_r_alt by lia. by rewrite Nat.sub_diag.
Qed.

Lemma set_handler key value d db s :
  allowedAsAKey key = true → serializable value = true →
  run_reaction (OnDatabase readwrite (SetSteps key value) d) (Fulfilled db) s
  = enqueue [ResolveThenableJob d (length (promises s))]
      (with_transactions
         (transactions s
          ++ [Transaction readwrite [write_of key value] VNull
                (write_listeners (length (promises s)))])
         (with_promises (promises s ++ [Promise None []])
            (add_log (LogTransaction readwrite) s))).
Proof.
  intros Hk Hv. unfold run_reaction, database_transaction, run_steps, set_steps,
    store_delete, store_put, transaction_promise, new_promise,
    addASimpleEventListener, add_write. rewrite Hk, Hv. 
  destruct value; simpl; rewrite ?alter_snoc; try done.
Qed.

Lemma delete_handler key d db s :
  allowedAsAKey key = true →
  run_reaction (OnDatabase readwrite (DeleteSteps key) d) (Fulfilled db) s
  = enqueue [ResolveThenableJob d (length (promises s))]
      (with_transactions
         (transactions s
          ++ [Transaction readwrite [Del key] VNull
                (write_listeners (length (promises s)))])
         (with_promises (promises s ++ [Promise None []])
            (add_log (LogTransaction readwrite) s))).
Proof.
  intros Hk. unfold run_reaction, database_transaction, run_steps, delete_steps,
    store_delete, transaction_promise, new_promise,
    addASimpleEventListener, add_write. rewrite Hk. 
  simpl; by rewrite ?alter_snoc.
Qed.

Lemma terminal_event t m ws e0 p e s :
  transactions s !! t = Some (Transaction m ws e0 (write_listeners p)) →
  pending p (promises s) →
  outcome_of p (transaction_complete t s) = Some (Fulfilled VUndefined)
  ∧ outcome_of p (transaction_fail error t e s) = Some (Rejected e)
  ∧ outcome_of p (transaction_fail abort t e s) = Some (Rejected e).
Proof.
  intros Ht [rs Hp]. unfold transaction_complete, transaction_fail, outcome_of.
  rewrite Ht. simpl. rewrite !list_lookup_alter_eq, Hp. done.
Qed.

(** ** Round trip *)

Lemma val_eqb_eq (a b : val) : val_eqb a b = true ↔ a = b.
Proof.
  revert b. induction a as [| | | | | | |xs IH| | |] using val_nested_ind;
    intros [| | | | | | |ys| | |]; simpl;
    try (split; discriminate); try (split; congruence).
  - rewrite Bool.eqb_true_iff. split; congruence.
  - rewrite Z.eqb_eq. split; congruence.
  - rewrite String.eqb_eq. split; congruence.
  - rewrite Z.eqb_eq. split; congruence.
  - rewrite bool_decide_eq_true. split; congruence.
  - revert ys. induction IH as [|x xs Hx _ IHxs]; intros [|y ys];
      try (split; congruence || discriminate).
    rewrite andb_true_iff, Hx. 
    specialize (IHxs ys). split.
    + intros [-> E]. apply IHxs in E. congruence.
    + intros [= -> ->]. split; [done|]. by apply IHxs.
  - rewrite Nat.eqb_eq. split; congruence.
  - rewrite String.eqb_eq. split; congruence.
Qed.

Lemma val_eqb_refl (a : val) : val_eqb a a = true.
Proof. by apply val_eqb_eq. Qed.

Lemma lookup_put k v c : lookup_key k (apply_write c (Put k v)) = v.
Proof. unfold lookup_key. simpl. by rewrite val_eqb_refl. Qed.

Lemma lookup_remove_other k k' c :
  k' ≠ k → lookup_key k (remove_key k' c) = lookup_key k c.
Proof.
  intros Hne. unfold lookup_key, remove_key.
  induction c as [|[x y] c IH]; [done|]. simpl.
  destruct (val_eqb x k') eqn:E1; simpl.
  - apply val_eqb_eq in E1 as ->. destruct (val_eqb k' k) eqn:E2; [|done].
    by apply val_eqb_eq in E2.
  - by destruct (val_eqb x k).
Qed.

Lemma lookup_write_other k w c :
  (∀ v, w ≠ Put k v) → w ≠ Del k →
  lookup_key k (apply_write c w) = lookup_key k c.
Proof.
  intros H1 H2. destruct w as [k' v'|k']; simpl.
  - assert (k' ≠ k) as Hne by (intros ->; by eapply H1).
    unfold lookup_key at 1. simpl. destruct (val_eqb k' k) eqn:E.
    + by apply val_eqb_eq in E.
    + by apply lookup_remove_other.
  - apply lookup_remove_other. congruence.
Qed.

Lemma lookup_absent k c :
  Forall (λ kv, kv.1 ≠ k) c → lookup_key k c = VUndefined.
Proof.
  unfold lookup_key. induction 1 as [|[x y] c Hx _ IH]; [done|]. simpl in *.
  destruct (val_eqb x k) eqn:E; [|done]. by apply val_eqb_eq in E.
Qed.

Lemma get_handler key d db s :
  allowedAsAKey key = true →
  run_reaction (OnDatabase readonly (GetSteps key) d) (Fulfilled db) s
  = enqueue [ResolveThenableJob d (length (promises s))]
      (with_requests
         (requests s
          ++ [Request key VUndefined VNull
                (read_listeners (length (promises s)))])
         (with_promises (promises s ++ [Promise None []])
            (with_transactions
               (transactions s ++ [Transaction readonly [] VNull []])
               (add_log (LogTransaction readonly) s)))).
Proof.
  intros Hk. unfold run_reaction, database_transaction, run_steps, get_steps,
    store_get, new_promise, addASimpleEventListener_request. rewrite Hk.
  simpl. by rewrite ?alter_snoc.
Qed.

Lemma write_of_put key value : value ≠ VUndefined → write_of key value = Put key value.
Proof. by destruct value. Qed.

(** ** Operations run to their end *)

Lemma alter_settled (f : promise → promise) (ps : list promise) (p : nat) x :
  ps !! p = Some x → f x = x → alter f p ps = ps.
Proof.
  intros E Hf. apply list_eq. intros i. destruct (decide (p = i)) as [->|].
  - rewrite list_lookup_alter_eq, E. simpl. by rewrite Hf.
  - by rewrite list_lookup_alter_ne.
Qed.

Lemma immediate_snoc (ps : list promise) r x :
  immediate (length ps) r (ps ++ [Promise None x]) = [].
Proof. unfold immediate. by rewrite list_lookup_middle. Qed.

Lemma triggered_snoc (ps : list promise) o rs :
  triggered (length ps) o (ps ++ [Promise None rs])
  = map (λ r, ReactionJob r o) rs.
Proof. unfold triggered, pending_reactions. by rewrite list_lookup_middle. Qed.

Lemma settled_now_snoc (ps : list promise) rs :
  settled_now (length ps) (ps ++ [Promise None rs]) = [LogSettled (length ps)].
Proof. unfold settled_now, pending_reactions. by rewrite list_lookup_middle. Qed.

Lemma alter_middle {A} (f : A → A) (l1 l2 : list A) (x : A) :
  alter f (length l1) (l1 ++ x :: l2) = l1 ++ f x :: l2.
Proof. rewrite alter_app_r_alt by lia. by rewrite Nat.sub_diag. Qed.

Lemma insert_snoc {A} (l : list A) (x y : A) :
  <[length l := y]> (l ++ [x]) = l ++ [y].
Proof.
  replace (length l) with (length l + 0) at 1 by lia. by rewrite insert_app_r.
Qed.

Section symbolic.
Context (n : option string) (b : option KVStorageAreaBackingStore)
  (os : list open_request) (ds : list delete_request) (fa dc : nat)
  (pv : private_fields).

Lemma call_on_open m st p0 db rs ps js ts rqs cs L :
  ps !! p0 = Some (Promise (Some (Fulfilled db)) rs) →
  performADatabaseOperation m st
    (State n (Some p0) b ps js os ds ts rqs cs L fa dc pv)
  = (Some (length ps),
     State n (Some p0) b (ps ++ [Promise None []])
       (js ++ [ReactionJob (OnDatabase m st (length ps)) (Fulfilled db)])
       os ds ts rqs cs L (if bool_decide (is_Some n) then fa else S fa) dc pv).
Proof.
  intros Hp. rewrite performADatabaseOperation_eq. simpl.
  unfold perform_then, immediate. simpl.
  rewrite (lookup_app_l_Some _ _ _ _ Hp).
  rewrite alter_app_l by (by eapply lookup_lt_Some).
  by rewrite (alter_settled _ ps p0 _ Hp).
Qed.

Lemma tick_write_handler key value d db c ps js ts rqs cs L :
  allowedAsAKey key = true → serializable value = true →
  tick (State n c b ps
          (ReactionJob (OnDatabase readwrite (SetSteps key value) d)
             (Fulfilled db) :: js) os ds ts rqs cs L fa dc pv)
  = State n c b (ps ++ [Promise None []])
      (js ++ [ResolveThenableJob d (length ps)]) os ds
      (ts ++ [Transaction readwrite [write_of key value] VNull
                (write_listeners (length ps))])
      rqs cs (L ++ [LogTransaction readwrite]) fa dc pv.
Proof.
  intros Hk Hv. unfold tick. cbn [jobs run_job].
  by rewrite set_handler.
Qed.

Lemma tick_delete_handler key d db c ps js ts rqs cs L :
  allowedAsAKey key = true →
  tick (State n c b ps
          (ReactionJob (OnDatabase readwrite (DeleteSteps key) d)
             (Fulfilled db) :: js) os ds ts rqs cs L fa dc pv)
  = State n c b (ps ++ [Promise None []])
      (js ++ [ResolveThenableJob d (length ps)]) os ds
      (ts ++ [Transaction readwrite [Del key] VNull
                (write_listeners (length ps))])
      rqs cs (L ++ [LogTransaction readwrite]) fa dc pv.
Proof.
  intros Hk. unfold tick. cbn [jobs run_job].
  by rewrite delete_handler.
Qed.

Lemma tick_read_handler key d db c ps js ts rqs cs L :
  allowedAsAKey key = true →
  tick (State n c b ps
          (ReactionJob (OnDatabase readonly (GetSteps key) d)
             (Fulfilled db) :: js) os ds ts rqs cs L fa dc pv)
  = State n c b (ps ++ [Promise None []])
      (js ++ [ResolveThenableJob d (length ps)]) os ds
      (ts ++ [Transaction readonly [] VNull []])
      (rqs ++ [Request key VUndefined VNull (read_listeners (length ps))])
      cs (L ++ [LogTransaction readonly]) fa dc pv.
Proof.
  intros Hk. unfold tick. cbn [jobs run_job].
  by rewrite get_handler.
Qed.

Lemma tick_adopt d c ps rs js ts rqs cs L :
  tick (State n c b (ps ++ [Promise None rs])
          (ResolveThenableJob d (length ps) :: js) os ds ts rqs cs L fa dc pv)
  = State n c b (ps ++ [Promise None (rs ++ [ResolveFunctions d])]) js
      os ds ts rqs cs L fa dc pv.
Proof.
  unfold tick. simpl. unfold perform_then. simpl.
  by rewrite alter_snoc, immediate_snoc, app_nil_r.
Qed.

Lemma complete_write c ps rs js ts m ws e rqs cs L :
  transaction_complete (length ts)
    (State n c b (ps ++ [Promise None rs]) js os ds
       (ts ++ [Transaction m ws e (write_listeners (length ps))])
       rqs cs L fa dc pv)
  = State n c b (ps ++ [Promise (Some (Fulfilled VUndefined)) []])
      (js ++ map (λ r, ReactionJob r (Fulfilled VUndefined)) rs) os ds
      (ts ++ [Transaction m [] e (write_listeners (length ps))])
      rqs (foldl apply_write cs ws) (L ++ [LogSettled (length ps)]) fa dc pv.
Proof.
  unfold transaction_complete. simpl. rewrite list_lookup_middle by done.
  simpl. unfold settle. simpl.
  by rewrite alter_snoc, triggered_snoc, settled_now_snoc, insert_snoc.
Qed.

Lemma success_read c ps rs js ts rqs k v0 e cs L :
  request_success (length rqs)
    (State n c b (ps ++ [Promise None rs]) js os ds ts
       (rqs ++ [Request k v0 e (read_listeners (length ps))]) cs L fa dc pv)
  = State n c b (ps ++ [Promise (Some (Fulfilled (lookup_key k cs))) []])
      (js ++ map (λ r, ReactionJob r (Fulfilled (lookup_key k cs))) rs) os ds
      ts (rqs ++ [Request k (lookup_key k cs) e (read_listeners (length ps))])
      cs (L ++ [LogSettled (length ps)]) fa dc pv.
Proof.
  unfold request_success. simpl. rewrite list_lookup_middle by done.
  simpl. unfold settle. simpl.
  by rewrite alter_snoc, triggered_snoc, settled_now_snoc, insert_snoc.
Qed.

Lemma tick_resolve c l1 rs l2 o js ts rqs cs L :
  tick (State n c b (l1 ++ Promise None rs :: l2)
          (ReactionJob (ResolveFunctions (length l1)) o :: js)
          os ds ts rqs cs L fa dc pv)
  = State n c b (l1 ++ Promise (Some o) [] :: l2)
      (js ++ map (λ r, ReactionJob r o) rs) os ds ts rqs cs
      (L ++ [LogSettled (length l1)]) fa dc pv.
Proof.
  unfold tick. simpl. unfold settle, triggered, settled_now, pending_reactions.
  simpl. by rewrite alter_middle, list_lookup_middle.
Qed.

Lemma call_on_closed m st ps js ts rqs cs L :
  performADatabaseOperation m st
    (State n None b ps js os ds ts rqs cs L fa dc pv)
  = (Some (S (length ps)),
     State n (Some (length ps)) b
       (ps ++ [Promise None [OnDatabase m st (S (length ps))];
               Promise None []])
       js (os ++ [OpenRequest n (length ps) false]) ds ts rqs cs
       (L ++ [LogCache (Some (length ps)); LogOpen n (length ps)])
       (if bool_decide (is_Some n) then fa else S fa) dc pv).
Proof.
  rewrite performADatabaseOperation_eq. simpl.
  unfold perform_then, immediate. simpl.
  rewrite lookup_app_l by (rewrite length_app; simpl; lia).
  rewrite list_lookup_middle by done.
  rewrite alter_app_l by (rewrite length_app; simpl; lia).
  by rewrite alter_snoc, length_app, Nat.add_1_r, app_nil_r, <- !app_assoc.
Qed.

Lemma open_succeeds c ps rs l2 js n' ts rqs cs L :
  open_success (length os)
    (State n c b (ps ++ Promise None rs :: l2) js
       (os ++ [OpenRequest n' (length ps) false]) ds ts rqs cs L fa dc pv)
  = State n c b
      (ps ++ Promise (Some (Fulfilled (VDatabase (length os)))) [] :: l2)
      (js ++ map (λ r, ReactionJob r (Fulfilled (VDatabase (length os)))) rs)
      (os ++ [OpenRequest n' (length ps) true]) ds ts rqs cs
      (L ++ [LogSettled (length ps)]) fa dc pv.
Proof.
  unfold open_success. simpl. rewrite list_lookup_middle by done.
  unfold settle, triggered, settled_now, pending_reactions. simpl.
  by rewrite alter_middle, list_lookup_middle, insert_snoc.
Qed.

Lemma write_rest key value db c ps ts rqs cs L :
  allowedAsAKey key = true → serializable value = true →
  run [Tick; Tick; Fire (TransactionComplete (length ts)); Tick]
    (State n c b (ps ++ [Promise None []])
       [ReactionJob (OnDatabase readwrite (SetSteps key value) (length ps))
          (Fulfilled db)]
       os ds ts rqs cs L fa dc pv)
  = State n c b
      (ps ++ [Promise (Some (Fulfilled VUndefined)) [];
              Promise (Some (Fulfilled VUndefined)) []])
      [] os ds
      (ts ++ [Transaction readwrite [] VNull
                (write_listeners (S (length ps)))])
      rqs (apply_write cs (write_of key value))
      (L ++ [LogTransaction readwrite; LogSettled (S (length ps));
             LogSettled (length ps)])
      fa dc pv.
Proof.
  intros Hk Hv. unfold run. cbn [foldl].
  unfold step at 4. rewrite tick_write_handler by done.
  unfold step at 3. cbn [app]. rewrite tick_adopt.
  unfold step at 2. cbn [jobs fire]. rewrite complete_write.
  unfold step. cbn [app map]. rewrite <- (app_assoc ps). cbn [app].
  rewrite tick_resolve. rewrite length_app, Nat.add_1_r. cbn [foldl app].
  by rewrite <- !app_assoc.
Qed.

Lemma read_rest key db c ps ts rqs cs L :
  allowedAsAKey key = true →
  run [Tick; Tick; Fire (RequestSuccess (length rqs)); Tick]
    (State n c b (ps ++ [Promise None []])
       [ReactionJob (OnDatabase readonly (GetSteps key) (length ps))
          (Fulfilled db)]
       os ds ts rqs cs L fa dc pv)
  = State n c b
      (ps ++ [Promise (Some (Fulfilled (lookup_key key cs))) [];
              Promise (Some (Fulfilled (lookup_key key cs))) []])
      [] os ds
      (ts ++ [Transaction readonly [] VNull []])
      (rqs ++ [Request key (lookup_key key cs) VNull
                 (read_listeners (S (length ps)))])
      cs
      (L ++ [LogTransaction readonly; LogSettled (S (length ps));
             LogSettled (length ps)])
      fa dc pv.
Proof.
  intros Hk. unfold run. cbn [foldl].
  unfold step at 4. rewrite tick_read_handler by done.
  unfold step at 3. cbn [app]. rewrite tick_adopt.
  unfold step at 2. cbn [jobs fire]. rewrite success_read.
  unfold step. cbn [app map]. rewrite <- (app_assoc ps). cbn [app].
  rewrite tick_resolve. rewrite length_app, Nat.add_1_r. cbn [foldl app].
  by rewrite <- !app_assoc.
Qed.
End symbolic.

Lemma run_app tr1 tr2 s : run (tr1 ++ tr2) s = run tr2 (run tr1 s).
Proof. apply foldl_app. Qed.

Lemma set_run_open key value n p0 b ps os ds ts rqs cs L fa dc pv db rs :
  allowedAsAKey key = true → serializable value = true →
  ps !! p0 = Some (Promise (Some (Fulfilled db)) rs) →
  let s := State n (Some p0) b ps [] os ds ts rqs cs L fa dc pv in
  (set key value s).1 = Some (length ps)
  ∧ run (write_to_completion s) (set key value s).2
    = State n (Some p0) b
        (ps ++ [Promise (Some (Fulfilled VUndefined)) [];
                Promise (Some (Fulfilled VUndefined)) []])
        [] os ds
        (ts ++ [Transaction readwrite [] VNull
                  (write_listeners (S (length ps)))])
        rqs (apply_write cs (write_of key value))
        (L ++ [LogTransaction readwrite; LogSettled (S (length ps));
               LogSettled (length ps)])
        (if bool_decide (is_Some n) then fa else S fa) dc pv.
Proof.
  intros Hk Hv Hp s. subst s. unfold write_to_completion, opening, set.
  erewrite call_on_open by exact Hp. cbn [app fst snd DatabasePromise transactions].
  by rewrite write_rest.
Qed.

Lemma set_run_closed key value n b ps os ds ts rqs cs L fa dc pv :
  allowedAsAKey key = true → serializable value = true →
  let s := State n None b ps [] os ds ts rqs cs L fa dc pv in
  (set key value s).1 = Some (S (length ps))
  ∧ run (write_to_completion s) (set key value s).2
    = State n (Some (length ps)) b
        (ps ++ [Promise (Some (Fulfilled (VDatabase (length os)))) [];
                Promise (Some (Fulfilled VUndefined)) [];
                Promise (Some (Fulfilled VUndefined)) []])
        [] (os ++ [OpenRequest n (length ps) true]) ds
        (ts ++ [Transaction readwrite [] VNull
                  (write_listeners (S (S (length ps))))])
        rqs (apply_write cs (write_of key value))
        (L ++ [LogCache (Some (length ps)); LogOpen n (length ps);
               LogSettled (length ps); LogTransaction readwrite;
               LogSettled (S (S (length ps))); LogSettled (S (length ps))])
        (if bool_decide (is_Some n) then fa else S fa) dc pv.
Proof.
  intros Hk Hv s. subst s. unfold write_to_completion, opening, set.
  rewrite call_on_closed. cbn [fst snd DatabasePromise transactions opens].
  split; [done|]. rewrite run_app.
  unfold run at 2. cbn [foldl step jobs fire].
  rewrite open_succeeds. cbn [app map].
  replace (S (length ps)) with
    (length (ps ++ [Promise (Some (Fulfilled (VDatabase (length os)))) []]))
    by (rewrite length_app; simpl; lia).
  rewrite (cons_middle _ ps [Promise None []]), app_assoc.
  rewrite write_rest by done.
  rewrite !length_app. cbn [length]. rewrite !Nat.add_1_r.
  by rewrite <- !app_assoc.
Qed.

Lemma get_run_open key n p0 b ps os ds ts rqs cs L fa dc pv db rs :
  allowedAsAKey key = true →
  ps !! p0 = Some (Promise (Some (Fulfilled db)) rs) →
  let s := State n (Some p0) b ps [] os ds ts rqs cs L fa dc pv in
  (get key s).1 = Some (length ps)
  ∧ run (read_to_success s) (get key s).2
    = State n (Some p0) b
        (ps ++ [Promise (Some (Fulfilled (lookup_key key cs))) [];
                Promise (Some (Fulfilled (lookup_key key cs))) []])
        [] os ds
        (ts ++ [Transaction readonly [] VNull []])
        (rqs ++ [Request key (lookup_key key cs) VNull
                   (read_listeners (S (length ps)))])
        cs
        (L ++ [LogTransaction readonly; LogSettled (S (length ps));
               LogSettled (length ps)])
        (if bool_decide (is_Some n) then fa else S fa) dc pv.
Proof.
  intros Hk Hp s. subst s. unfold read_to_success, opening, get.
  rewrite Hk. cbn [negb].
  erewrite call_on_open by exact Hp. cbn [app fst snd DatabasePromise requests].
  by rewrite read_rest.
Qed.

Lemma get_run_closed key n b ps os ds ts rqs cs L fa dc pv :
  allowedAsAKey key = true →
  let s := State n None b ps [] os ds ts rqs cs L fa dc pv in
  (get key s).1 = Some (S (length ps))
  ∧ run (read_to_success s) (get key s).2
    = State n (Some (length ps)) b
        (ps ++ [Promise (Some (Fulfilled (VDatabase (length os)))) [];
                Promise (Some (Fulfilled (lookup_key key cs))) [];
                Promise (Some (Fulfilled (lookup_key key cs))) []])
        [] (os ++ [OpenRequest n (length ps) true]) ds
        (ts ++ [Transaction readonly [] VNull []])
        (rqs ++ [Request key (lookup_key key cs) VNull
                   (read_listeners (S (S (length ps))))])
        cs
        (L ++ [LogCache (Some (length ps)); LogOpen n (length ps);
               LogSettled (length ps); LogTransaction readonly;
               LogSettled (S (S (length ps))); LogSettled (S (length ps))])
        (if bool_decide (is_Some n) then fa else S fa) dc pv.
Proof.
  intros Hk s. subst s. unfold read_to_success, opening, get.
  rewrite Hk. cbn [negb].
  rewrite call_on_closed. cbn [fst snd DatabasePromise requests opens].
  split; [done|]. rewrite run_app.
  unfold run at 2. cbn [foldl step jobs fire].
  rewrite open_succeeds. cbn [app map].
  replace (S (length ps)) with
    (length (ps ++ [Promise (Some (Fulfilled (VDatabase (length os)))) []]))
    by (rewrite length_app; simpl; lia).
  rewrite (cons_middle _ ps [Promise None []]), app_assoc.
  rewrite read_rest by done.
  rewrite !length_app. cbn [length]. rewrite !Nat.add_1_r.
  by rewrite <- !app_assoc.
Qed.

Lemma set_idle key value s :
  allowedAsAKey key = true → serializable value = true → idle s →
  let s' := run (write_to_completion s) (set key value s).2 in
  ∃ d, (set key value s).1 = Some d
  ∧ outcome_of d s' = Some (Fulfilled VUndefined)
  ∧ contents s' = apply_write (contents s) (write_of key value)
  ∧ idle s' ∧ DatabasePromise s' ≠ None.
Proof.
  intros Hk Hv [Hj Hc] s'. subst s'.
  destruct s as [n c b ps js os ds ts rqs cs L fa dc pv].
  simpl in Hj, Hc. subst js. destruct c as [p0|].
  - destruct Hc as (db & rs & Hp).
    destruct (set_run_open key value n p0 b ps os ds ts rqs cs L fa dc pv db rs
                Hk Hv Hp) as [E1 E2]. cbv zeta in E1, E2. rewrite E1, E2.
    exists (length ps). unfold outcome_of, idle. cbn.
    rewrite list_lookup_middle by done. split_and!; try done.
    exists db, rs. by apply lookup_app_l_Some.
  - destruct (set_run_closed key value n b ps os ds ts rqs cs L fa dc pv Hk Hv)
      as [E1 E2]. cbv zeta in E1, E2. rewrite E1, E2.
    exists (S (length ps)). unfold outcome_of, idle. cbn.
    rewrite (cons_middle _ ps), app_assoc.
    rewrite list_lookup_middle by (rewrite length_app; simpl; lia).
    split_and!; try done. rewrite <- app_assoc.
    eexists _, _. by apply list_lookup_middle.
Qed.

Lemma get_idle key s :
  allowedAsAKey key = true → idle s →
  let s' := run (read_to_success s) (get key s).2 in
  ∃ d, (get key s).1 = Some d
  ∧ outcome_of d s' = Some (Fulfilled (lookup_key key (contents s)))
  ∧ contents s' = contents s
  ∧ idle s' ∧ DatabasePromise s' ≠ None.
Proof.
  intros Hk [Hj Hc] s'. subst s'.
  destruct s as [n c b ps js os ds ts rqs cs L fa dc pv].
  simpl in Hj, Hc. subst js. destruct c as [p0|].
  - destruct Hc as (db & rs & Hp).
    destruct (get_run_open key n p0 b ps os ds ts rqs cs L fa dc pv db rs
                Hk Hp) as [E1 E2]. cbv zeta in E1, E2. rewrite E1, E2.
    exists (length ps). unfold outcome_of, idle. cbn.
    rewrite list_lookup_middle by done. split_and!; try done.
    exists db, rs. by apply lookup_app_l_Some.
  - destruct (get_run_closed key n b ps os ds ts rqs cs L fa dc pv Hk)
      as [E1 E2]. cbv zeta in E1, E2. rewrite E1, E2.
    exists (S (length ps)). unfold outcome_of, idle. cbn.
    rewrite (cons_middle _ ps), app_assoc.
    rewrite list_lookup_middle by (rewrite length_app; simpl; lia).
    split_and!; try done. rewrite <- app_assoc.
    eexists _, _. by apply list_lookup_middle.
Qed.

Lemma writes_idle ws k s :
  Forall (λ kv, allowedAsAKey kv.1 = true ∧ serializable kv.2 = true
                ∧ kv.1 ≠ k) ws →
  idle s →
  idle (writes ws s)
  ∧ lookup_key k (contents (writes ws s)) = lookup_key k (contents s).
Proof.
  revert s. induction ws as [|[k' v'] ws IH]; intros s Hws Hs; [done|].
  apply Forall_cons in Hws as [(Hk & Hv & Hne) Hws]. simpl in Hk, Hv, Hne.
  change (writes ((k', v') :: ws) s)
    with (writes ws (run (write_to_completion s) (set k' v' s).2)).
  destruct (set_idle k' v' s Hk Hv Hs) as (d & _ & _ & Ec & Hq & _).
  destruct (IH _ Hws Hq) as [Hq' El]. split; [done|].
  rewrite El, Ec. apply lookup_write_other.
  - intros v. destruct v'; simpl; congruence.
  - destruct v'; simpl; congruence.
Qed.

Lemma idle_fresh name persisted : idle (constructor name (host persisted)).
Proof. by split. Qed.

(** C8.  In a state where no microtask is queued and the database is open
    or not cached, for a key that is allowed and a value that serializes
    and is not undefined: set, run to the completion of its transaction,
    fulfils its promise with undefined; after any further writes to other
    keys, each run to completion, a get of the key is fulfilled with that
    very value.  A get of a key that has no stored entry is fulfilled
    with undefined. *)
Theorem set_then_get key value ws s :
  allowedAsAKey key = true → serializable value = true →
  value ≠ VUndefined →
  Forall (λ kv, allowedAsAKey kv.1 = true ∧ serializable kv.2 = true
                ∧ kv.1 ≠ key) ws →
  idle s →
  let s1 := run (write_to_completion s) (set key value s).2 in
  let s2 := writes ws s1 in
  let s3 := run (read_to_success s2) (get key s2).2 in
  (∃ d, (set key value s).1 = Some d
        ∧ outcome_of d s1 = Some (Fulfilled VUndefined))
  ∧ (∃ d, (get key s2).1 = Some d
          ∧ outcome_of d s3 = Some (Fulfilled value))
  ∧ (Forall (λ kv, kv.1 ≠ key) (contents s) →
     let s4 := run (read_to_success s) (get key s).2 in
     ∃ d, (get key s).1 = Some d
          ∧ outcome_of d s4 = Some (Fulfilled VUndefined)).
Proof.
  intros Hk Hv Hu Hws Hs s1 s2 s3.
  destruct (set_idle key value s Hk Hv Hs) as (d & E1 & E2 & Ec & Hi & _).
  fold s1 in E2, Ec, Hi.
  destruct (writes_idle ws key s1 Hws Hi) as [Hi2 El]. fold s2 in Hi2, El.
  destruct (get_idle key s2 Hk Hi2) as (d' & E3 & E4 & _). fold s3 in E4.
  split_and!.
  - by exists d.
  - exists d'. split; [done|].
    by rewrite E4, El, Ec, write_of_put, lookup_put.
  - intros Ha s4. destruct (get_idle key s Hk Hs) as (d0 & E5 & E6 & _).
    fold s4 in E6. exists d0. split; [done|]. by rewrite E6, lookup_absent.
Qed.

Lemma set_then_get_witness :
  let key := VStr "a" in
  let value := VArr [VNum 1; VStr "x"] in
  let ws := [(VStr "c", VNum 3)] in
  let s := constructor "default" (host [(VStr "b", VNum 2)]) in
  let s2 := writes ws (run (write_to_completion s) (set key value s).2) in
  allowedAsAKey key = true ∧ serializable value = true ∧ value ≠ VUndefined
  ∧ idle s
  ∧ ∃ d, (get key s2).1 = Some d
      ∧ outcome_of d (run (read_to_success s2) (get key s2).2)
        = Some (Fulfilled value).
Proof.
  split_and!; [reflexivity..|discriminate|apply idle_fresh|].
  refine (proj1 (proj2 (set_then_get (VStr "a") (VArr [VNum 1; VStr "x"])
    [(VStr "c", VNum 3)] (constructor "default" (host [(VStr "b", VNum 2)]))
    eq_refl eq_refl _ _ (idle_fresh _ _)))).
  - discriminate.
  - repeat constructor. discriminate.
Defined.

Lemma in_flight_pending d p t s : in_flight d p t s → outcome_of d s = None.
Proof. intros (_ & _ & _ & _ & Hd). unfold outcome_of. by rewrite Hd. Qed.

Lemma in_flight_settles d p t e s :
  in_flight d p t s →
  outcome_of d (run [Fire (TransactionComplete t); Tick] s)
  = Some (Fulfilled VUndefined)
  ∧ outcome_of d (run [Fire (TransactionError t e); Tick] s)
    = Some (Rejected e)
  ∧ outcome_of d (run [Fire (TransactionAbort t e); Tick] s)
    = Some (Rejected e).
Proof.
  intros (Hj & Hne & (m & ws & e0 & Ht) & Hp & Hd).
  destruct s as [n c b ps js os ds ts rqs cs L fa dc pv].
  simpl in Hj, Ht, Hp, Hd. subst js.
  unfold run, outcome_of. simpl.
  unfold transaction_complete, transaction_fail. simpl.
  rewrite Ht. simpl. unfold tick. simpl.
  unfold triggered, pending_reactions. rewrite Hp. simpl.
  rewrite !list_lookup_alter_eq, !list_lookup_alter_ne, Hd by done. done.
Qed.

Lemma handler_rest key value st n c b ps os ds ts rqs cs L fa dc pv db :
  allowedAsAKey key = true → serializable value = true →
  write_steps key value st →
  in_flight (length ps) (S (length ps)) (length ts)
    (run [Tick; Tick]
       (State n c b (ps ++ [Promise None []])
          [ReactionJob (OnDatabase readwrite st (length ps)) (Fulfilled db)]
          os ds ts rqs cs L fa dc pv)).
Proof.
  intros Hk Hv Hst. unfold run. cbn [foldl]. unfold step at 2.
  assert (∃ w, tick (State n c b (ps ++ [Promise None []])
          [ReactionJob (OnDatabase readwrite st (length ps)) (Fulfilled db)]
          os ds ts rqs cs L fa dc pv)
       = State n c b ((ps ++ [Promise None []]) ++ [Promise None []])
           ([] ++ [ResolveThenableJob (length ps)
                     (length (ps ++ [Promise None []]))]) os ds
           (ts ++ [Transaction readwrite [w] VNull
                     (write_listeners (length (ps ++ [Promise None []])))])
           rqs cs (L ++ [LogTransaction readwrite]) fa dc pv) as [w ->].
  { destruct Hst as [-> | ->]; eexists.
    - rewrite tick_write_handler by done. reflexivity.
    - rewrite tick_delete_handler by done. reflexivity. }
  unfold step. cbn [app]. rewrite tick_adopt.
  rewrite length_app, Nat.add_1_r. unfold in_flight. cbn.
  split_and!; [done|lia| | |].
  - eexists _, _, _. by apply list_lookup_middle.
  - apply list_lookup_middle. rewrite length_app. simpl. lia.
  - rewrite <- app_assoc. by apply list_lookup_middle.
Qed.

Lemma write_in_flight key value s (f : state → option nat * state) :
  allowedAsAKey key = true → serializable value = true → idle s →
  f = set key value ∨ f = delete key →
  ∃ d p, (f s).1 = Some d
    ∧ in_flight d p (length (transactions s))
        (run (opening s ++ [Tick; Tick]) (f s).2).
Proof.
  intros Hk Hv [Hj Hc] Hf.
  assert (∃ st, write_steps key value st
            ∧ f s = performADatabaseOperation readwrite st s) as (st & Hst & ->).
  { destruct Hf as [-> | ->].
    - exists (SetSteps key value). split; [by left|done].
    - exists (DeleteSteps key). split; [by right|]. unfold delete.
      by rewrite Hk. }
  destruct s as [n c b ps js os ds ts rqs cs L fa dc pv].
  simpl in Hj, Hc. subst js. unfold opening. cbn [DatabasePromise opens transactions].
  destruct c as [p0|].
  - destruct Hc as (db & rs & Hp). erewrite call_on_open by exact Hp.
    cbn [fst snd app]. eexists _, _. split; [done|].
    by eapply handler_rest.
  - rewrite call_on_closed. cbn [fst snd]. rewrite run_app.
    unfold run at 2. cbn [foldl step jobs fire].
    rewrite open_succeeds. cbn [app map].
    replace (S (length ps)) with
      (length (ps ++ [Promise (Some (Fulfilled (VDatabase (length os)))) []]))
      by (rewrite length_app; simpl; lia).
    rewrite (cons_middle _ ps [Promise None []]), app_assoc.
    eexists _, _. split; [done|]. by eapply handler_rest.
Qed.

(** C7.  The handler of a set or of a delete puts three listeners on its
    transaction, all on one new pending promise, which the returned
    promise adopts.  The terminal event decides that promise: complete
    fulfils it with undefined, error and abort reject it with the
    transaction's error.  A promise that has settled keeps its outcome
    whatever runs next, so the first event wins.  Issued in a state where
    no microtask is queued and the database is open or not cached, the
    promise set or delete returned is pending until the terminal event
    and ends with that outcome. *)
Theorem write_settles_once key value e :
  allowedAsAKey key = true → serializable value = true →
  (∀ d db s,
     let p := length (promises s) in
     let s1 := run_reaction (OnDatabase readwrite (SetSteps key value) d)
                 (Fulfilled db) s in
     let s2 := run_reaction (OnDatabase readwrite (DeleteSteps key) d)
                 (Fulfilled db) s in
     transactions s1 !! length (transactions s)
     = Some (Transaction readwrite [write_of key value] VNull
               (write_listeners p))
     ∧ transactions s2 !! length (transactions s)
       = Some (Transaction readwrite [Del key] VNull (write_listeners p))
     ∧ pending p (promises s1) ∧ pending p (promises s2)
     ∧ jobs s1 = jobs s ++ [ResolveThenableJob d p]
     ∧ jobs s2 = jobs s ++ [ResolveThenableJob d p])
  ∧ (∀ t m ws e0 p s,
       transactions s !! t = Some (Transaction m ws e0 (write_listeners p)) →
       pending p (promises s) →
       outcome_of p (transaction_complete t s) = Some (Fulfilled VUndefined)
       ∧ outcome_of p (transaction_fail error t e s) = Some (Rejected e)
       ∧ outcome_of p (transaction_fail abort t e s) = Some (Rejected e))
  ∧ (∀ p o tr s, outcome_of p s = Some o → outcome_of p (run tr s) = Some o)
  ∧ (∀ s (f : state → option nat * state),
       idle s → f = set key value ∨ f = delete key →
       let t := length (transactions s) in
       let s1 := run (opening s ++ [Tick; Tick]) (f s).2 in
       ∃ d, (f s).1 = Some d
         ∧ outcome_of d s1 = None
         ∧ outcome_of d (run [Fire (TransactionComplete t); Tick] s1)
           = Some (Fulfilled VUndefined)
         ∧ outcome_of d (run [Fire (TransactionError t e); Tick] s1)
           = Some (Rejected e)
         ∧ outcome_of d (run [Fire (TransactionAbort t e); Tick] s1)
           = Some (Rejected e)).
Proof.
  intros Hk Hv. split_and!.
  - intros d db s p s1 s2. subst s1 s2 p.
    rewrite set_handler, delete_handler by done. simpl.
    rewrite !list_lookup_middle by done.
    split_and!; try done; exists []; by apply list_lookup_middle.
  - intros. by eapply terminal_event.
  - intros. by apply settled_stays.
  - intros s f Hs Hf t s1.
    destruct (write_in_flight key value s f Hk Hv Hs Hf) as (d & p & E & Hi).
    fold s1 t in Hi. exists d. split; [done|].
    split; [by eapply in_flight_pending|]. by eapply in_flight_settles.
Qed.

Lemma write_settles_once_witness :
  let s := defaultKVStorageArea in
  let s1 := run (opening s ++ [Tick; Tick]) (set (VStr "a") (VNum 1) s).2 in
  allowedAsAKey (VStr "a") = true ∧ serializable (VNum 1) = true ∧ idle s
  ∧ ∃ d, (set (VStr "a") (VNum 1) s).1 = Some d
      ∧ outcome_of d
          (run [Fire (TransactionAbort 0 (VException "AbortError")); Tick] s1)
        = Some (Rejected (VException "AbortError")).
Proof.
  split_and!; [reflexivity..|apply idle_fresh|].
  destruct (proj2 (proj2 (proj2 (write_settles_once (VStr "a") (VNum 1)
    (VException "AbortError") eq_refl eq_refl))) defaultKVStorageArea
    (set (VStr "a") (VNum 1)) (idle_fresh _ _) (or_introl eq_refl))
    as (d & E & _ & _ & _ & Ha).
  exists d. split; [exact E|exact Ha].
Defined.

(** * Further properties of the operations *)

(** ** Steps on an explicit state *)

Lemma run_cons a tr s : run (a :: tr) s = run tr (step s a).
Proof. reflexivity. Qed.

Lemma run_two a a' tr s : run (a :: a' :: tr) s = run tr (run [a; a'] s).
Proof. reflexivity. Qed.

Lemma run_call o s : run [Call o] s = call o s.
Proof. reflexivity. Qed.

Lemma outcome_lookup p o s :
  outcome_of p s = Some o ↔ ∃ rs, promises s !! p = Some (Promise (Some o) rs).
Proof.
  unfold outcome_of. split.
  - destruct (promises s !! p) as [[st rs]|]; simpl; [|done].
    intros ->. by exists rs.
  - by intros [rs ->].
Qed.

Section stepping.
Context (n : option string) (b : option KVStorageAreaBackingStore)
  (os : list open_request) (fa dc : nat) (pv : private_fields).

(** Settling, and attaching to, a pending promise whose place in the heap
    is known. *)
Lemma settle_at l1 rs l2 p o c l js ds ts rqs cs L :
  l = l1 ++ Promise None rs :: l2 → p = length l1 →
  settle p o (State n c b l js os ds ts rqs cs L fa dc pv)
  = State n c b (l1 ++ Promise (Some o) [] :: l2)
      (js ++ map (λ r, ReactionJob r o) rs) os ds ts rqs cs
      (L ++ [LogSettled p]) fa dc pv.
Proof.
  intros -> ->. unfold settle, triggered, settled_now, pending_reactions.
  simpl. by rewrite alter_middle, list_lookup_middle.
Qed.

Lemma attach_at l1 rs l2 p r c l js ds ts rqs cs L :
  l = l1 ++ Promise None rs :: l2 → p = length l1 →
  perform_then p r (State n c b l js os ds ts rqs cs L fa dc pv)
  = State n c b (l1 ++ Promise None (rs ++ [r]) :: l2) js
      os ds ts rqs cs L fa dc pv.
Proof.
  intros -> ->. unfold perform_then, immediate. simpl.
  by rewrite alter_middle, list_lookup_middle, app_nil_r.
Qed.

Lemma tick_reaction r o c ps js ds ts rqs cs L :
  tick (State n c b ps (ReactionJob r o :: js) os ds ts rqs cs L fa dc pv)
  = run_reaction r o (State n c b ps js os ds ts rqs cs L fa dc pv).
Proof. reflexivity. Qed.

Lemma database_transaction_eq m c ps js ds ts rqs cs L :
  database_transaction m (State n c b ps js os ds ts rqs cs L fa dc pv)
  = (length ts,
     State n c b ps js os ds (ts ++ [Transaction m [] VNull []]) rqs cs
       (L ++ [LogTransaction m]) fa dc pv).
Proof. reflexivity. Qed.

Lemma call_clear_on_open p0 db rs ps js ds ts rqs cs L :
  ps !! p0 = Some (Promise (Some (Fulfilled db)) rs) →
  clear (State n (Some p0) b ps js os ds ts rqs cs L fa dc pv)
  = (Some (length ps),
     State n (Some p0) b (ps ++ [Promise None []])
       (js ++ [ReactionJob (OnFinallyClear p0 (length ps)) (Fulfilled db)])
       os ds ts rqs cs L fa dc pv).
Proof.
  intros Hp. unfold clear. cbn [DatabasePromise].
  unfold then_, new_promise, perform_then, immediate. cbn.
  rewrite (lookup_app_l_Some _ _ _ _ Hp).
  rewrite alter_app_l by (by eapply lookup_lt_Some).
  by rewrite (alter_settled _ ps p0 _ Hp).
Qed.

Lemma tick_finally_clear a d o c ps js ds ts rqs cs L :
  tick (State n c b ps (ReactionJob (OnFinallyClear a d) o :: js)
          os ds ts rqs cs L fa dc pv)
  = State n None b
      (ps ++ [Promise None [ThenFinally o (S (length ps))]; Promise None []])
      (js ++ [ResolveThenableJob d (S (length ps))]) os
      (ds ++ [DeleteRequest n (length ps) false]) ts rqs cs
      (L ++ [LogCache None; LogDeleteDatabase n (Some a)]) fa dc pv.
Proof.
  unfold tick. cbn [jobs run_job run_reaction].
  unfold then_, deletingTheDatabase, new_promise, perform_then, immediate.
  cbn. rewrite !length_app. cbn [length]. rewrite !Nat.add_1_r.
  rewrite lookup_app_l by (rewrite length_app; simpl; lia).
  rewrite list_lookup_middle by done. cbn.
  rewrite alter_app_l by (rewrite length_app; simpl; lia).
  by rewrite alter_snoc, app_nil_r, <- !app_assoc.
Qed.

Lemma tick_thenable d th c ps js ds ts rqs cs L :
  tick (State n c b ps (ResolveThenableJob d th :: js) os ds ts rqs cs L fa dc
          pv)
  = perform_then th (ResolveFunctions d)
      (State n c b ps js os ds ts rqs cs L fa dc pv).
Proof. reflexivity. Qed.

Lemma tick_then_finally orig d o c ps js ds ts rqs cs L :
  tick (State n c b ps (ReactionJob (ThenFinally orig d) o :: js)
          os ds ts rqs cs L fa dc pv)
  = settle d (finally_outcome orig o)
      (State n c b ps js os ds ts rqs cs L fa dc pv).
Proof. by destruct o. Qed.

Lemma tick_resolve_functions t o c ps js ds ts rqs cs L :
  tick (State n c b ps (ReactionJob (ResolveFunctions t) o :: js)
          os ds ts rqs cs L fa dc pv)
  = settle t o (State n c b ps js os ds ts rqs cs L fa dc pv).
Proof. reflexivity. Qed.

Lemma delete_success_last n' q c ps js ds ts rqs cs L :
  delete_success (length ds)
    (State n c b ps js os (ds ++ [DeleteRequest n' q false]) ts rqs cs L
       fa dc pv)
  = settle q (Fulfilled VUndefined)
      (State n c b ps js os (ds ++ [DeleteRequest n' q true]) ts rqs [] L
         fa dc pv).
Proof.
  unfold delete_success. simpl. rewrite list_lookup_middle by done.
  by rewrite insert_snoc.
Qed.

Lemma delete_error_last e n' q c ps js ds ts rqs cs L :
  delete_error (length ds) e
    (State n c b ps js os (ds ++ [DeleteRequest n' q false]) ts rqs cs L
       fa dc pv)
  = settle q (Rejected e)
      (State n c b ps js os (ds ++ [DeleteRequest n' q true]) ts rqs cs L
         fa dc pv).
Proof.
  unfold delete_error. simpl. rewrite list_lookup_middle by done.
  by rewrite insert_snoc.
Qed.

(** A clear on an open database, run until its handler has issued the
    destruction and the returned promise waits for it. *)
Lemma clear_started p0 db rs ps ds ts rqs cs L :
  ps !! p0 = Some (Promise (Some (Fulfilled db)) rs) →
  run [Tick; Tick]
    (clear (State n (Some p0) b ps [] os ds ts rqs cs L fa dc pv)).2
  = State n None b
      (ps ++ [Promise None [];
              Promise None [ThenFinally (Fulfilled db) (S (S (length ps)))];
              Promise None [ResolveFunctions (length ps)]])
      [] os (ds ++ [DeleteRequest n (S (length ps)) false]) ts rqs cs
      (L ++ [LogCache None; LogDeleteDatabase n (Some p0)]) fa dc pv.
Proof.
  intros Hp. erewrite call_clear_on_open by exact Hp. cbn [snd app].
  rewrite !run_cons. cbn [step run foldl]. rewrite tick_finally_clear.
  rewrite length_app. cbn [length app]. rewrite Nat.add_1_r.
  rewrite tick_thenable.
  erewrite (attach_at (ps ++ [Promise None []; _]) [] [])
    by (rewrite <- ?app_assoc, ?length_app; simpl; f_equal; lia).
  by rewrite <- !app_assoc.
Qed.

(** The destruction succeeds, or fails with [e]: the promise of the
    destruction, the promise [finally] derived from it and the returned
    promise settle in turn. *)
Lemma clear_settles o ps db ds ts rqs cs L :
  run [Tick; Tick]
    (settle (S (length ps)) o
       (State n None b
          (ps ++ [Promise None [];
                  Promise None
                    [ThenFinally (Fulfilled db) (S (S (length ps)))];
                  Promise None [ResolveFunctions (length ps)]])
          [] os ds ts rqs cs L fa dc pv))
  = State n None b
      (ps ++ [Promise (Some (finally_outcome (Fulfilled db) o)) [];
              Promise (Some o) [];
              Promise (Some (finally_outcome (Fulfilled db) o)) []])
      [] os ds ts rqs cs
      (L ++ [LogSettled (S (length ps)); LogSettled (S (S (length ps)));
             LogSettled (length ps)]) fa dc pv.
Proof.
  erewrite (settle_at (ps ++ [Promise None []]) _ [_])
    by (rewrite <- ?app_assoc, ?length_app; simpl; f_equal; lia).
  rewrite !run_cons. cbn [step run foldl app map].
  rewrite tick_then_finally.
  erewrite (settle_at (ps ++ [Promise None []; _]) _ [])
    by (rewrite <- ?app_assoc, ?length_app; simpl; f_equal; lia).
  cbn [app map]. rewrite tick_resolve_functions.
  erewrite (settle_at ps _ [_; _])
    by (rewrite <- ?app_assoc, ?length_app; simpl; f_equal; lia).
  by rewrite <- !app_assoc.
Qed.
End stepping.

Lemma call_clear_on_closed n b ps js os ds ts rqs cs L fa dc pv :
  clear (State n None b ps js os ds ts rqs cs L fa dc pv)
  = (Some (length ps),
     State n None b (ps ++ [Promise None []]) js os
       (ds ++ [DeleteRequest n (length ps) false]) ts rqs cs
       (L ++ [LogDeleteDatabase n None]) fa dc pv).
Proof. reflexivity. Qed.

Lemma open_error_last e n n' p c b ps js os ds ts rqs cs L fa dc pv :
  open_error (length os) e
    (State n c b ps js (os ++ [OpenRequest n' p false]) ds ts rqs cs L fa dc pv)
  = set_DatabasePromise None
      (settle p (Rejected e)
         (State n c b ps js (os ++ [OpenRequest n' p true]) ds ts rqs cs L
            fa dc pv)).
Proof.
  unfold open_error. simpl. rewrite list_lookup_middle by done.
  by rewrite insert_snoc.
Qed.

(** An operation issued in an idle state, run until the database is open:
    its handler is the one job queued, and nothing else has changed on
    the engine's side. *)
Lemma perform_opened m st s :
  idle s →
  ∃ n c b ps os L fa db,
    (performADatabaseOperation m st s).1 = Some (length ps)
    ∧ run (opening s) (performADatabaseOperation m st s).2
      = State n c b (ps ++ [Promise None []])
          [ReactionJob (OnDatabase m st (length ps)) (Fulfilled db)]
          os (deletes s) (transactions s) (requests s) (contents s) L fa
          (descriptor_computations s) (private s)
    ∧ (∃ p0 rs, c = Some p0
         ∧ ps !! p0 = Some (Promise (Some (Fulfilled db)) rs)).
Proof.
  intros [Hj Hc]. destruct s as [n c b ps js os ds ts rqs cs L fa dc pv].
  simpl in Hj, Hc. subst js. unfold opening. cbn [DatabasePromise opens].
  destruct c as [p0|].
  - destruct Hc as (db & rs & Hp). erewrite call_on_open by exact Hp.
    cbn [fst snd app]. eexists _, _, _, _, _, _, _, _.
    split_and!; [done|reflexivity|]. by eexists _, _.
  - rewrite call_on_closed. cbn [fst snd].
    unfold run. cbn [foldl step jobs fire].
    rewrite open_succeeds. cbn [app map].
    eexists _, _, _, (ps ++ [_]), _, _, _, _.
    rewrite length_app, Nat.add_1_r, <- (app_assoc ps).
    split_and!; [done|reflexivity|].
    eexists _, _. split; [done|]. by apply list_lookup_middle.
Qed.

(** ** get, settled by its request *)

Lemma reading_settles key d p r e s :
  reading key d p r s →
  outcome_of d s = None
  ∧ outcome_of d (run [Fire (RequestSuccess r); Tick] s)
    = Some (Fulfilled (lookup_key key (contents s)))
  ∧ outcome_of d (run [Fire (RequestError r e); Tick] s) = Some (Rejected e).
Proof.
  intros (Hj & Hne & (v0 & e0 & Hr) & Hp & Hd).
  destruct s as [n c b ps js os ds ts rqs cs L fa dc pv].
  simpl in Hj, Hr, Hp, Hd. subst js.
  unfold run, outcome_of. simpl. rewrite Hd. split; [done|].
  unfold request_success, request_error. simpl.
  rewrite Hr. simpl. unfold tick. simpl.
  unfold triggered, pending_reactions. rewrite Hp. simpl.
  rewrite !list_lookup_alter_eq, !list_lookup_alter_ne, Hd by done. done.
Qed.

Lemma read_handler_rest key n c b ps os ds ts rqs cs L fa dc pv db :
  allowedAsAKey key = true →
  let s := run [Tick; Tick]
       (State n c b (ps ++ [Promise None []])
          [ReactionJob (OnDatabase readonly (GetSteps key) (length ps))
             (Fulfilled db)]
          os ds ts rqs cs L fa dc pv) in
  reading key (length ps) (S (length ps)) (length rqs) s
  ∧ contents s = cs
  ∧ transactions s = ts ++ [Transaction readonly [] VNull []].
Proof.
  intros Hk s.
  assert (s = State n c b
                (ps ++ [Promise None [];
                        Promise None [ResolveFunctions (length ps)]])
                [] os ds (ts ++ [Transaction readonly [] VNull []])
                (rqs ++ [Request key VUndefined VNull
                           (read_listeners (S (length ps)))])
                cs (L ++ [LogTransaction readonly]) fa dc pv) as ->.
  { subst s. unfold run. cbn [foldl]. unfold step at 2.
    rewrite tick_read_handler by done.
    unfold step. cbn [app]. rewrite tick_adopt.
    by rewrite length_app, Nat.add_1_r, <- app_assoc. }
  unfold reading. cbn. split_and!; try done; try lia.
  - eexists _, _. by apply list_lookup_middle.
  - rewrite (cons_middle _ ps), app_assoc.
    apply list_lookup_middle. rewrite length_app. simpl. lia.
  - by apply list_lookup_middle.
Qed.

Lemma get_reading key s :
  allowedAsAKey key = true → idle s →
  let s1 := run (opening s ++ [Tick; Tick]) (get key s).2 in
  ∃ d p, (get key s).1 = Some d
    ∧ reading key d p (length (requests s)) s1
    ∧ contents s1 = contents s
    ∧ transactions s1 = transactions s ++ [Transaction readonly [] VNull []].
Proof.
  intros Hk Hs s1. subst s1. unfold get. rewrite Hk. cbn [negb].
  destruct (perform_opened readonly (GetSteps key) s Hs)
    as (n & c & b & ps & os & L & fa & db & E1 & E2 & _).
  rewrite run_app, E1, E2. eexists _, _. split; [done|].
  by apply read_handler_rest.
Qed.

(** X1.  In a state where no microtask is queued and the database is open
    or not cached, a get of an allowed key opens one read-only
    transaction, with no write in it, and returns a promise that is
    pending until the request fires: success fulfils it with the entry
    stored at the key, or undefined if there is none, and error rejects
    it with the request's error. *)
Theorem get_settles_by_request_event key e s :
  allowedAsAKey key = true → idle s →
  let r := length (requests s) in
  let s1 := run (opening s ++ [Tick; Tick]) (get key s).2 in
  ∃ d, (get key s).1 = Some d
    ∧ outcome_of d s1 = None
    ∧ transactions s1 = transactions s ++ [Transaction readonly [] VNull []]
    ∧ outcome_of d (run [Fire (RequestSuccess r); Tick] s1)
      = Some (Fulfilled (lookup_key key (contents s)))
    ∧ outcome_of d (run [Fire (RequestError r e); Tick] s1)
      = Some (Rejected e).
Proof.
  intros Hk Hs r s1.
  destruct (get_reading key s Hk Hs) as (d & p & E & Hr & Ec & Et).
  fold s1 r in Hr, Ec, Et. exists d.
  destruct (reading_settles key d p r e s1 Hr) as (H1 & H2 & H3).
  rewrite Ec in H2. by split_and!.
Qed.

Lemma get_settles_by_request_event_witness :
  let s := defaultKVStorageArea in
  let e := VException "UnknownError" in
  let s1 := run (opening s ++ [Tick; Tick]) (get (VStr "a") s).2 in
  allowedAsAKey (VStr "a") = true ∧ idle s
  ∧ ∃ d, (get (VStr "a") s).1 = Some d
      ∧ outcome_of d (run [Fire (RequestError 0 e); Tick] s1)
        = Some (Rejected e).
Proof.
  split_and!; [reflexivity|apply idle_fresh|].
  destruct (get_settles_by_request_event (VStr "a")
              (VException "UnknownError") defaultKVStorageArea eq_refl
              (idle_fresh _ _)) as (d & E & _ & _ & _ & He).
  exists d. split; [exact E|exact He].
Defined.

(** ** get never writes *)

Lemma readonly_clean_new ts m e ls :
  readonly_clean ts → readonly_clean (ts ++ [Transaction m [] e ls]).
Proof. intros H. apply Forall_app. split; [done|]. by repeat constructor. Qed.

Lemma readonly_clean_listener ts t l :
  readonly_clean ts → readonly_clean (alter (push_listener l) t ts).
Proof. intros H. apply Forall_alter; [done|]. intros x _ Hx. exact Hx. Qed.

Lemma readonly_clean_write ts w e ls :
  readonly_clean ts →
  readonly_clean
    (alter (push_write w) (length ts) (ts ++ [Transaction readwrite [] e ls])).
Proof.
  intros H. rewrite alter_snoc. apply Forall_app. split; [done|].
  by repeat constructor.
Qed.

Lemma readonly_clean_finish ts t m e ls :
  readonly_clean ts → readonly_clean (<[t := Transaction m [] e ls]> ts).
Proof. intros H. by apply Forall_insert. Qed.

Lemma read_inv_tick s : read_inv s → read_inv (tick s).
Proof.
  intros [(H1 & H2 & H3 & H4 & H5 & H6) Ht]. unfold tick.
  destruct (jobs s) as [|j js] eqn:E;
    [split; [split_and!; try done; by rewrite E|done]|].
  apply Forall_cons in H2 as [Hj H2].
  destruct j as [[m st d|a d|orig d|t] o|t th]; simpl in *.
  - destruct o.
    + destruct st, m; try done; open_steps; by_cases;
        (split; [settlers; by intros|]); simpl;
        repeat first [ apply readonly_clean_listener
                     | apply readonly_clean_write
                     | apply readonly_clean_new ]; done.
    + split; [settlers; by intros|done].
  - destruct o; (split; [settlers; by intros|done]).
  - split; [destruct o; settlers; by intros|by destruct o].
  - split; [settlers; by intros|done].
  - split; [settlers; by intros|done].
Qed.

Lemma read_inv_dispatch ty res e ls s :
  read_inv s → read_inv (dispatch ty res e ls s).
Proof.
  intros [H Ht]. split.
  - apply settlers_ok_dispatch; [|done]. by intros ? [[] [] ?| | |].
  - by destruct (dispatch_outside ty res e ls s) as (_ & -> & _).
Qed.

Lemma read_inv_fire ev s : read_inv s → read_inv (fire ev s).
Proof.
  intros Hs. pose proof Hs as [(H1 & H2 & H3 & H4 & H5 & H6) Ht].
  destruct ev; open_events; by_cases; try apply read_inv_dispatch;
    (split; [settlers; by intros|]); simpl;
    try (by apply readonly_clean_finish); done.
Qed.

Lemma read_inv_call o s : read_inv s → read_inv (call o s).
Proof.
  intros [(H1 & H2 & H3 & H4 & H5 & H6) Ht].
  destruct o; unfold call, set, get, delete, clear, backingStore;
    rewrite ?performADatabaseOperation_eq; by_cases;
    (split; [settlers; by intros|done]).
Qed.

Lemma read_inv_run name persisted tr :
  read_inv (run tr (constructor name (host persisted))).
Proof.
  unfold run. induction tr as [|a tr IH] using rev_ind.
  - split; [|by constructor]. repeat split; simpl; try by constructor.
    by intros [] ?.
  - rewrite foldl_app. simpl. destruct a as [o| |ev]; simpl.
    + by apply read_inv_call.
    + by apply read_inv_tick.
    + destruct (jobs _); [by apply read_inv_fire|done].
Qed.

(** X2.  Whatever has run on an area, a read-only transaction holds no
    write, so its completion leaves the stored entries as they are: get
    is the only operation that asks for a read-only transaction, and its
    steps only read. *)
Theorem get_never_writes name persisted tr t tx :
  let s := run tr (constructor name (host persisted)) in
  transactions s !! t = Some tx → t_mode tx = readonly →
  t_writes tx = [] ∧ contents (transaction_complete t s) = contents s.
Proof.
  intros s Ht Hm. destruct (read_inv_run name persisted tr) as [_ Hc].
  fold s in Hc. clearbody s.
  assert (t_writes tx = []) as Hw by exact (Forall_lookup_1 _ _ _ _ Hc Ht Hm).
  split; [done|]. unfold transaction_complete. rewrite Ht.
  destruct tx as [m ws e ls]. simpl in Hw. subst ws.
  match goal with |- context [dispatch ?ty ?res ?e ?ls ?s] =>
    destruct (dispatch_outside ty res e ls s) as (F & _ & _) end.
  unfold outside_heap in F. by simplify_eq/=.
Qed.

Lemma get_never_writes_witness :
  let s := run [Call (OpGet (VStr "a")); Fire (OpenSuccess 0); Tick]
             (constructor "default" (host [(VStr "a", VNum 1)])) in
  transactions s !! 0 = Some (Transaction readonly [] VNull [])
  ∧ contents (transaction_complete 0 s) = contents s.
Proof.
  split; [reflexivity|].
  exact (proj2 (get_never_writes "default" [(VStr "a", VNum 1)]
    [Call (OpGet (VStr "a")); Fire (OpenSuccess 0); Tick] 0
    (Transaction readonly [] VNull []) eq_refl eq_refl)).
Defined.

(** ** set of a value that does not serialize *)

Lemma set_handler_unserializable key value d db s :
  allowedAsAKey key = true → serializable value = false →
  run_reaction (OnDatabase readwrite (SetSteps key value) d) (Fulfilled db) s
  = settle d (Rejected (VException "DataCloneError"))
      (database_transaction readwrite s).2.
Proof.
  intros Hk Hv. unfold run_reaction.
  destruct (database_transaction readwrite s) as [t s1].
  cbn [run_steps snd]. unfold set_steps, store_put. rewrite Hk, Hv.
  by destruct value.
Qed.

(** X3.  A set of an allowed key with a value that does not serialize
    returns a pending promise; when its handler runs, the transaction has
    been created and the engine's put throws, so the promise is rejected
    with a DataCloneError.  The transaction holds no write, and its
    completion leaves the stored entries as they are. *)
Theorem set_unserializable key value s :
  allowedAsAKey key = true → serializable value = false → idle s →
  let t := length (transactions s) in
  let s0 := run (opening s) (set key value s).2 in
  let s1 := run [Tick] s0 in
  ∃ d, (set key value s).1 = Some d
    ∧ outcome_of d s0 = None
    ∧ outcome_of d s1 = Some (Rejected (VException "DataCloneError"))
    ∧ transactions s1 = transactions s ++ [Transaction readwrite [] VNull []]
    ∧ contents s1 = contents s
    ∧ contents (run [Fire (TransactionComplete t)] s1) = contents s.
Proof.
  intros Hk Hv Hs. cbv zeta. unfold set.
  destruct (perform_opened readwrite (SetSteps key value) s Hs)
    as (n & c & b & ps & os & L & fa & db & E1 & E2 & _).
  rewrite E1, E2. exists (length ps). split; [done|].
  rewrite !run_cons. cbn [run foldl step jobs fire]. rewrite tick_reaction.
  rewrite set_handler_unserializable by done.
  rewrite database_transaction_eq. cbn [snd].
  erewrite (settle_at _ _ _ _ _ _ ps [] []) by done.
  unfold outcome_of, transaction_complete. cbn.
  rewrite !list_lookup_middle by done. done.
Qed.

Lemma set_unserializable_witness :
  let s := defaultKVStorageArea in
  allowedAsAKey (VStr "a") = true ∧ serializable VFun = false ∧ idle s
  ∧ ∃ d, (set (VStr "a") VFun s).1 = Some d
      ∧ outcome_of d (run [Tick] (run (opening s) (set (VStr "a") VFun s).2))
        = Some (Rejected (VException "DataCloneError")).
Proof.
  split_and!; [reflexivity|reflexivity|apply idle_fresh|].
  destruct (set_unserializable (VStr "a") VFun defaultKVStorageArea eq_refl
              eq_refl (idle_fresh _ _)) as (d & E & _ & Hr & _).
  exists d. split; [exact E|exact Hr].
Defined.

(** ** clear, run to its end *)

(** X4.  With no cached database promise, clear issues the destruction of
    the area's database at once, opens nothing and leaves the cache null;
    the promise it returns is the engine's: fulfilled with undefined when
    the destruction succeeds, which empties the store, and rejected with
    the engine's error when it fails, which leaves the store as it is. *)
Theorem clear_without_cache e s :
  DatabasePromise s = None → jobs s = [] →
  let i := length (deletes s) in
  let q := length (promises s) in
  let s1 := (clear s).2 in
  (clear s).1 = Some q
  ∧ outcome_of q s1 = None
  ∧ deletes s1 = deletes s ++ [DeleteRequest (DatabaseName s) q false]
  ∧ opens s1 = opens s ∧ DatabasePromise s1 = None ∧ jobs s1 = []
  ∧ outcome_of q (run [Fire (DeleteSuccess i)] s1)
    = Some (Fulfilled VUndefined)
  ∧ contents (run [Fire (DeleteSuccess i)] s1) = []
  ∧ outcome_of q (run [Fire (DeleteError i e)] s1) = Some (Rejected e)
  ∧ contents (run [Fire (DeleteError i e)] s1) = contents s.
Proof.
  intros Hc Hj i q s1. subst i q s1.
  destruct s as [n c b ps js os ds ts rqs cs L fa dc pv]. simpl in Hc, Hj.
  subst c js. rewrite call_clear_on_closed. unfold run.
  cbn [fst snd foldl step fire jobs deletes promises DatabaseName].
  rewrite delete_success_last, delete_error_last.
  rewrite !(settle_at _ _ _ _ _ _ ps [] []) by done.
  unfold outcome_of. cbn. by rewrite !list_lookup_middle.
Qed.

Lemma clear_without_cache_witness :
  let s := defaultKVStorageArea in
  DatabasePromise s = None ∧ jobs s = []
  ∧ outcome_of 0 (run [Fire (DeleteSuccess 0)] (clear s).2)
    = Some (Fulfilled VUndefined).
Proof.
  split_and!; [reflexivity|reflexivity|].
  exact (proj1 (proj2 (proj2 (proj2 (proj2 (proj2 (proj2
    (clear_without_cache VNull defaultKVStorageArea eq_refl eq_refl)))))))).
Defined.

(** X5.  With the database open, clear issues nothing when called; its
    handler sets the cache to null and then issues the destruction.  The
    returned promise is pending until the destruction settles.  When it
    succeeds, the promise is fulfilled with the database handle the
    cached promise held, not with undefined: [finally] hands the awaited
    value on.  When it fails, the promise is rejected with the error of
    the destruction. *)
Theorem clear_on_open_database e s p0 db :
  jobs s = [] → DatabasePromise s = Some p0 →
  outcome_of p0 s = Some (Fulfilled db) →
  let i := length (deletes s) in
  let s1 := run [Tick; Tick] (clear s).2 in
  let s2 := run [Fire (DeleteSuccess i); Tick; Tick] s1 in
  let s3 := run [Fire (DeleteError i e); Tick; Tick] s1 in
  ∃ d, (clear s).1 = Some d
    ∧ outcome_of d s1 = None
    ∧ DatabasePromise s1 = None
    ∧ log s1 = log s ++ [LogCache None;
                         LogDeleteDatabase (DatabaseName s) (Some p0)]
    ∧ outcome_of d s2 = Some (Fulfilled db) ∧ contents s2 = []
    ∧ outcome_of d s3 = Some (Rejected e) ∧ contents s3 = contents s.
Proof.
  intros Hj Hc [rs Hp]%outcome_lookup.
  destruct s as [n c b ps js os ds ts rqs cs L fa dc pv].
  simpl in Hj, Hc, Hp. subst c js. cbv zeta.
  cbn [deletes log DatabaseName contents].
  rewrite (clear_started n b os fa dc pv p0 db rs ps ds ts rqs cs L Hp).
  rewrite !(run_cons (Fire _)). cbn [step jobs fire].
  rewrite delete_success_last, delete_error_last, !clear_settles.
  exists (length ps). erewrite call_clear_on_open by exact Hp.
  unfold outcome_of. cbn. rewrite !list_lookup_middle by done. done.
Qed.

Lemma clear_on_open_database_witness :
  let s := run [Call (OpSet (VStr "a") (VNum 1)); Fire (OpenSuccess 0); Tick;
                Tick; Fire (TransactionComplete 0); Tick]
             defaultKVStorageArea in
  jobs s = [] ∧ DatabasePromise s = Some 0
  ∧ outcome_of 0 s = Some (Fulfilled (VDatabase 0))
  ∧ ∃ d, (clear s).1 = Some d
      ∧ outcome_of d
          (run [Fire (DeleteSuccess 0); Tick; Tick]
             (run [Tick; Tick] (clear s).2))
        = Some (Fulfilled (VDatabase 0)).
Proof.
  split_and!; [reflexivity|reflexivity|reflexivity|].
  destruct (clear_on_open_database VNull
    (run [Call (OpSet (VStr "a") (VNum 1)); Fire (OpenSuccess 0); Tick;
          Tick; Fire (TransactionComplete 0); Tick] defaultKVStorageArea)
    0 (VDatabase 0) eq_refl eq_refl eq_refl)
    as (d & E & _ & _ & _ & Hs & _).
  exists d. split; [exact E|exact Hs].
Defined.

Lemma clear_idle s :
  idle s →
  let s1 := run (clear_to_completion s) (clear s).2 in
  (∃ d v, (clear s).1 = Some d ∧ outcome_of d s1 = Some (Fulfilled v))
  ∧ idle s1 ∧ DatabasePromise s1 = None ∧ contents s1 = []
  ∧ opens s1 = opens s ∧ DatabaseName s1 = DatabaseName s.
Proof.
  intros [Hj Hc]. destruct s as [n c b ps js os ds ts rqs cs L fa dc pv].
  simpl in Hj, Hc. subst js. unfold clear_to_completion.
  cbn [DatabasePromise deletes]. destruct c as [p0|]; cbv zeta.
  - destruct Hc as (db & rs & Hp).
    rewrite run_two.
    rewrite (clear_started n b os fa dc pv p0 db rs ps ds ts rqs cs L Hp).
    rewrite run_cons. cbn [step jobs fire].
    rewrite delete_success_last, clear_settles.
    erewrite call_clear_on_open by exact Hp.
    unfold idle, outcome_of. cbn. split_and!; try done.
    exists (length ps), db. by rewrite list_lookup_middle.
  - rewrite call_clear_on_closed. unfold run.
    cbn [fst snd foldl step fire jobs].
    rewrite delete_success_last.
    rewrite (settle_at _ _ _ _ _ _ ps [] []) by done.
    unfold idle, outcome_of. cbn. split_and!; try done.
    exists (length ps), VUndefined. by rewrite list_lookup_middle.
Qed.

(** X6.  After a clear has run to the success of its destruction, every
    allowed key reads as undefined, and the get that reads it has opened
    the database of the same name again: the cache was null. *)
Theorem clear_then_get key s :
  allowedAsAKey key = true → idle s →
  let s1 := run (clear_to_completion s) (clear s).2 in
  let s2 := run (read_to_success s1) (get key s1).2 in
  (∃ c v, (clear s).1 = Some c ∧ outcome_of c s1 = Some (Fulfilled v))
  ∧ DatabasePromise s1 = None
  ∧ (∃ d, (get key s1).1 = Some d
        ∧ outcome_of d s2 = Some (Fulfilled VUndefined))
  ∧ ∃ p, opens s2 = opens s ++ [OpenRequest (DatabaseName s) p true].
Proof.
  intros Hk Hs s1 s2.
  destruct (clear_idle s Hs) as (Hd & Hi & Hc & Ec & Eo & En).
  fold s1 in Hd, Hi, Hc, Ec, Eo, En. clearbody s1.
  split; [done|]. split; [done|].
  destruct s1 as [n c b ps js os ds ts rqs cs L fa dc pv].
  destruct Hi as [Hj _]. simpl in Hj, Hc, Ec, Eo, En. subst c js cs os n.
  destruct (get_run_closed key (DatabaseName s) b ps (opens s) ds ts rqs []
              L fa dc pv Hk) as [E1 E2].
  cbv zeta in E1, E2. subst s2. rewrite E1, E2. split.
  - exists (S (length ps)). split; [done|]. unfold outcome_of. cbn.
    rewrite (cons_middle _ ps), app_assoc.
    by rewrite list_lookup_middle by (rewrite length_app; simpl; lia).
  - by eexists.
Qed.

Lemma clear_then_get_witness :
  let s := constructor "default" (host [(VStr "a", VNum 1)]) in
  let s1 := run (clear_to_completion s) (clear s).2 in
  allowedAsAKey (VStr "a") = true ∧ idle s
  ∧ ∃ d, (get (VStr "a") s1).1 = Some d
      ∧ outcome_of d (run (read_to_success s1) (get (VStr "a") s1).2)
        = Some (Fulfilled VUndefined).
Proof.
  split_and!; [reflexivity|apply idle_fresh|].
  exact (proj1 (proj2 (proj2 (clear_then_get (VStr "a")
    (constructor "default" (host [(VStr "a", VNum 1)])) eq_refl
    (idle_fresh _ _))))).
Defined.

(** ** The area as a map *)

Lemma delete_rest key db n c b ps os ds ts rqs cs L fa dc pv :
  allowedAsAKey key = true →
  run [Tick; Tick; Fire (TransactionComplete (length ts)); Tick]
    (State n c b (ps ++ [Promise None []])
       [ReactionJob (OnDatabase readwrite (DeleteSteps key) (length ps))
          (Fulfilled db)]
       os ds ts rqs cs L fa dc pv)
  = State n c b
      (ps ++ [Promise (Some (Fulfilled VUndefined)) [];
              Promise (Some (Fulfilled VUndefined)) []])
      [] os ds
      (ts ++ [Transaction readwrite [] VNull
                (write_listeners (S (length ps)))])
      rqs (remove_key key cs)
      (L ++ [LogTransaction readwrite; LogSettled (S (length ps));
             LogSettled (length ps)])
      fa dc pv.
Proof.
  intros Hk. unfold run. cbn [foldl].
  unfold step at 4. rewrite tick_delete_handler by done.
  unfold step at 3. cbn [app]. rewrite tick_adopt.
  unfold step at 2. cbn [jobs fire]. rewrite complete_write.
  unfold step. cbn [app map]. rewrite <- (app_assoc ps). cbn [app].
  rewrite tick_resolve. rewrite length_app, Nat.add_1_r. cbn [foldl app].
  by rewrite <- !app_assoc.
Qed.

Lemma delete_idle key s :
  allowedAsAKey key = true → idle s →
  let s' := run (write_to_completion s) (delete key s).2 in
  ∃ d, (delete key s).1 = Some d
  ∧ outcome_of d s' = Some (Fulfilled VUndefined)
  ∧ contents s' = remove_key key (contents s)
  ∧ idle s'.
Proof.
  intros Hk Hs. cbv zeta. unfold delete. rewrite Hk. cbn [negb].
  destruct (perform_opened readwrite (DeleteSteps key) s Hs)
    as (n & c & b & ps & os & L & fa & db & E1 & E2 & p0 & rs & -> & Hp).
  unfold write_to_completion. rewrite run_app, E1, E2.
  rewrite delete_rest by done. exists (length ps).
  unfold outcome_of, idle. cbn. rewrite list_lookup_middle by done.
  split_and!; try done. exists db, rs. by apply lookup_app_l_Some.
Qed.

Lemma lookup_remove_same k c : lookup_key k (remove_key k c) = VUndefined.
Proof.
  apply lookup_absent. unfold remove_key. apply List.Forall_forall.
  intros [x y] [_ Hx]%List.filter_In. simpl in *. intros ->.
  by rewrite val_eqb_refl in Hx.
Qed.

Lemma lookup_remove k' k c :
  lookup_key k (remove_key k' c)
  = if val_eqb k' k then VUndefined else lookup_key k c.
Proof.
  destruct (val_eqb k' k) eqn:E.
  - apply val_eqb_eq in E as ->. apply lookup_remove_same.
  - apply lookup_remove_other. intros ->. by rewrite val_eqb_refl in E.
Qed.

Lemma lookup_apply_write k k' v' c :
  lookup_key k (apply_write c (write_of k' v'))
  = if val_eqb k' k then v' else lookup_key k c.
Proof.
  assert (v' = VUndefined ∨ v' ≠ VUndefined) as [->|Hv]
    by (destruct v'; (by left) || (by right)).
  - simpl. rewrite lookup_remove. by destruct (val_eqb k' k).
  - rewrite write_of_put by done. unfold lookup_key at 1. simpl.
    destruct (val_eqb k' k) eqn:E; [done|].
    apply lookup_remove_other. intros ->. by rewrite val_eqb_refl in E.
Qed.

Lemma op_idle o s :
  valid_op o → idle s →
  let s' := run (to_completion o s) (call o s) in
  idle s'
  ∧ ∀ k, lookup_key k (contents s') = effect k (lookup_key k (contents s)) o.
Proof.
  intros Ho Hs. cbv zeta.
  destruct o as [k' v'|k'|k'| |]; cbn [to_completion call effect].
  - destruct Ho as [Hk Hv].
    destruct (set_idle k' v' s Hk Hv Hs) as (d & _ & _ & Ec & Hi & _).
    split; [done|]. intros k. rewrite Ec. apply lookup_apply_write.
  - destruct (get_idle k' s Ho Hs) as (d & _ & _ & Ec & Hi & _).
    split; [done|]. intros k. by rewrite Ec.
  - destruct (delete_idle k' s Ho Hs) as (d & _ & _ & Ec & Hi).
    split; [done|]. intros k. rewrite Ec. apply lookup_remove.
  - destruct (clear_idle s Hs) as (_ & Hi & _ & Ec & _).
    split; [done|]. intros k. by rewrite Ec.
  - unfold backingStore, idle in *.
    by destruct (private_BackingStoreObject (private s)).
Qed.

Lemma in_turn_idle ops s :
  Forall valid_op ops → idle s →
  idle (in_turn ops s)
  ∧ ∀ k, lookup_key k (contents (in_turn ops s))
         = foldl (effect k) (lookup_key k (contents s)) ops.
Proof.
  revert s. induction ops as [|o ops IH]; intros s Hops Hs; [done|].
  apply Forall_cons in Hops as [Ho Hops]. cbn [in_turn foldl].
  destruct (op_idle o s Ho Hs) as [Hi El].
  destruct (IH _ Hops Hi) as [Hi' El']. split; [done|].
  intros k. by rewrite El', El.
Qed.

(** X7.  Used one operation at a time, the area is a map.  After any
    sequence of set, get, delete, clear and backingStore, each run to its
    end before the next is issued, a get of a key is fulfilled with what
    the last of them left at that key: the value of a set of the key,
    undefined after a delete of the key, a set of undefined or a clear,
    and what was stored before if none of them touched it. *)
Theorem area_is_a_map ops key s :
  Forall valid_op ops → allowedAsAKey key = true → idle s →
  let s1 := in_turn ops s in
  let s2 := run (read_to_success s1) (get key s1).2 in
  ∃ d, (get key s1).1 = Some d
    ∧ outcome_of d s2
      = Some (Fulfilled (foldl (effect key) (lookup_key key (contents s)) ops)).
Proof.
  intros Hops Hk Hs s1 s2.
  destruct (in_turn_idle ops s Hops Hs) as [Hi El]. fold s1 in Hi, El.
  destruct (get_idle key s1 Hk Hi) as (d & E & Ho & _). fold s2 in Ho.
  exists d. split; [done|]. by rewrite Ho, El.
Qed.

Lemma area_is_a_map_witness :
  let ops := [OpSet (VStr "a") (VNum 1); OpSet (VStr "a") (VNum 2);
              OpDelete (VStr "b"); OpGet (VStr "b"); OpClear;
              OpSet (VStr "b") (VNum 3); OpBackingStore] in
  let s := constructor "default" (host [(VStr "a", VNum 0)]) in
  let s1 := in_turn ops s in
  Forall valid_op ops ∧ allowedAsAKey (VStr "a") = true ∧ idle s
  ∧ ∃ d, (get (VStr "a") s1).1 = Some d
      ∧ outcome_of d (run (read_to_success s1) (get (VStr "a") s1).2)
        = Some (Fulfilled VUndefined).
Proof.
  assert (Forall valid_op
    [OpSet (VStr "a") (VNum 1); OpSet (VStr "a") (VNum 2);
     OpDelete (VStr "b"); OpGet (VStr "b"); OpClear;
     OpSet (VStr "b") (VNum 3); OpBackingStore]) as H
    by (repeat constructor).
  split_and!; [exact H|reflexivity|apply idle_fresh|].
  exact (area_is_a_map _ (VStr "a")
           (constructor "default" (host [(VStr "a", VNum 0)])) H eq_refl
           (idle_fresh _ _)).
Defined.

(** ** An open that fails *)

Lemma keyed_call key value s (f : state → option nat * state) :
  allowedAsAKey key = true →
  f = set key value ∨ f = get key ∨ f = delete key →
  ∃ m st, f s = performADatabaseOperation m st s.
Proof.
  intros Hk [-> | [-> | ->]]; unfold set, get, delete; rewrite ?Hk;
    by eexists _, _.
Qed.

(** X8.  When no database promise is cached, a set, get or delete starts
    an open and returns a pending promise.  If the open fails, the
    promise is rejected with the error of the open: the operation reacts
    to the database promise with a fulfilment handler only.  No
    transaction and no request is created and the stored entries stay as
    they are. *)
Theorem open_failure_rejects key value e s (f : state → option nat * state) :
  allowedAsAKey key = true → jobs s = [] → DatabasePromise s = None →
  f = set key value ∨ f = get key ∨ f = delete key →
  let s1 := run [Fire (OpenError (length (opens s)) e); Tick] (f s).2 in
  ∃ d, (f s).1 = Some d
    ∧ outcome_of d (f s).2 = None
    ∧ outcome_of d s1 = Some (Rejected e)
    ∧ transactions s1 = transactions s ∧ requests s1 = requests s
    ∧ contents s1 = contents s.
Proof.
  intros Hk Hj Hc Hf.
  destruct (keyed_call key value s f Hk Hf) as (m & st & ->).
  destruct s as [n c b ps js os ds ts rqs cs L fa dc pv].
  simpl in Hj, Hc. subst c js. cbv zeta. rewrite call_on_closed.
  cbn [fst snd opens transactions requests contents].
  exists (S (length ps)). split; [done|].
  rewrite !run_cons. cbn [run foldl step jobs fire].
  rewrite open_error_last.
  erewrite (settle_at _ _ _ _ _ _ ps _ [_]) by done.
  unfold set_DatabasePromise. cbn [map app DatabaseName DatabasePromise
    BackingStoreObject promises jobs opens deletes transactions requests
    contents log failed_assertions descriptor_computations].
  rewrite tick_reaction. cbn [run_reaction].
  erewrite (settle_at _ _ _ _ _ _ (ps ++ [_]) [] [])
    by (rewrite <- ?app_assoc, ?length_app; simpl; f_equal; lia).
  unfold outcome_of. cbn.
  rewrite (cons_middle _ ps), !app_assoc.
  rewrite !list_lookup_middle by (rewrite length_app; simpl; lia). done.
Qed.

Lemma open_failure_rejects_witness :
  let s := defaultKVStorageArea in
  let e := VException "VersionError" in
  allowedAsAKey (VStr "a") = true ∧ jobs s = [] ∧ DatabasePromise s = None
  ∧ ∃ d, (get (VStr "a") s).1 = Some d
      ∧ outcome_of d (run [Fire (OpenError 0 e); Tick] (get (VStr "a") s).2)
        = Some (Rejected e).
Proof.
  split_and!; [reflexivity|reflexivity|reflexivity|].
  destruct (open_failure_rejects (VStr "a") VNull (VException "VersionError")
    defaultKVStorageArea (get (VStr "a")) eq_refl eq_refl eq_refl
    (or_intror (or_introl eq_refl))) as (d & E & _ & Hr & _).
  exists d. split; [exact E|exact Hr].
Defined.

(** ** Operations waiting for one open *)

Lemma keyed_perform o s :
  keyed o →
  ∃ m st, call o s = (performADatabaseOperation m st s).2
    ∧ ∀ d, handler_of o (OnDatabase m st d).
Proof.
  destruct o as [k v|k|k| |]; simpl; try done; intros Hk.
  - eexists _, _. split; [done|]. by eexists.
  - unfold get. rewrite Hk. eexists _, _. split; [done|]. by eexists.
  - unfold delete. rewrite Hk. eexists _, _. split; [done|]. by eexists.
Qed.

Lemma queued_first o s :
  keyed o → jobs s = [] → DatabasePromise s = None →
  queued [o] (length (promises s)) (call o s)
  ∧ opens (call o s)
    = opens s ++ [OpenRequest (DatabaseName s) (length (promises s)) false]
  ∧ transactions (call o s) = transactions s.
Proof.
  intros Ho Hj Hc. destruct (keyed_perform o s Ho) as (m & st & -> & Hh).
  destruct s as [n c b ps js os ds ts rqs cs L fa dc pv].
  simpl in Hj, Hc. subst c js. rewrite call_on_closed. cbn.
  split; [|done]. split_and!; try done. eexists. split.
  - by apply list_lookup_middle.
  - repeat constructor. apply Hh.
Qed.

Lemma queued_next ops o p s :
  keyed o → queued ops p s →
  queued (ops ++ [o]) p (call o s)
  ∧ opens (call o s) = opens s ∧ transactions (call o s) = transactions s.
Proof.
  intros Ho (Hj & Hc & rs & Hp & Hrs).
  destruct (keyed_perform o s Ho) as (m & st & -> & Hh).
  rewrite performADatabaseOperation_eq, Hc.
  unfold then_, new_promise, perform_then, immediate. cbn.
  rewrite (lookup_app_l_Some _ _ _ _ Hp). rewrite Hj. cbn.
  split; [|done]. split_and!; try done.
  exists (rs ++ [OnDatabase m st (length (promises s))]). split.
  - cbn [promises].
    by rewrite list_lookup_alter_eq, (lookup_app_l_Some _ _ _ _ Hp).
  - apply Forall2_app; [done|]. repeat constructor. apply Hh.
Qed.

Lemma queued_calls ops o s :
  Forall keyed (o :: ops) → jobs s = [] → DatabasePromise s = None →
  let s1 := run (map Call (o :: ops)) s in
  queued (o :: ops) (length (promises s)) s1
  ∧ opens s1
    = opens s ++ [OpenRequest (DatabaseName s) (length (promises s)) false]
  ∧ transactions s1 = transactions s.
Proof.
  intros [Ho Hops]%Forall_cons Hj Hc.
  induction ops as [|o' ops IH] using rev_ind.
  - by apply queued_first.
  - apply Forall_app in Hops as [Hops [Ho' _]%Forall_cons].
    destruct (IH Hops) as (Hq & Eo & Et). cbv zeta.
    rewrite app_comm_cons, map_app, run_app. simpl (map Call [o']).
    rewrite run_call.
    destruct (queued_next _ o' _ _ Ho' Hq) as (Hq' & Eo' & Et').
    split_and!; [done|by rewrite Eo'|by rewrite Et'].
Qed.

Lemma handler_step o r db s :
  keyed o → handler_of o r →
  let s' := run_reaction r (Fulfilled db) s in
  (∃ j, jobs s' = jobs s ++ [j])
  ∧ ∃ t, transactions s' = transactions s ++ [t] ∧ tx_intent t = intent o.
Proof.
  destruct o as [k v|k|k| |]; simpl; try done.
  - intros [Hk Hv] [d ->]. rewrite set_handler by done. simpl.
    split; by eexists.
  - intros Hk [d ->]. rewrite get_handler by done. simpl.
    split; by eexists.
  - intros Hk [d ->]. rewrite delete_handler by done. simpl.
    split; by eexists.
Qed.

Lemma serve ops rs db js s :
  Forall keyed ops → Forall2 handler_of ops rs →
  jobs s = map (λ r, ReactionJob r (Fulfilled db)) rs ++ js →
  map tx_intent (transactions (run (replicate (length ops) Tick) s))
  = map tx_intent (transactions s) ++ map intent ops.
Proof.
  intros Hops Hrs. revert js s Hops.
  induction Hrs as [|o r ops rs Hr _ IH]; intros js s Hops Hj.
  - by rewrite app_nil_r.
  - apply Forall_cons in Hops as [Ho Hops].
    cbn [length replicate]. rewrite run_cons. cbn [step].
    unfold tick. rewrite Hj. cbn [map app run_job].
    destruct (handler_step o r db
                (with_jobs (map (λ r, ReactionJob r (Fulfilled db)) rs ++ js) s)
                Ho Hr) as ([j Ej] & t & Et & Ei).
    cbv zeta in Ej, Et. cbn [jobs transactions with_jobs] in Ej, Et.
    rewrite (IH (js ++ [j])); [|done|by rewrite Ej, <- app_assoc].
    rewrite Et, map_app. cbn [map]. by rewrite Ei, <- app_assoc.
Qed.

(** X9.  Operations issued one after the other before the database has
    opened are all attached to the promise of one open, and create no
    transaction while it is pending.  Once it succeeds, they are served
    in the order of the calls, one microtask and one transaction each:
    a read-only transaction without writes for a get, a read-write
    transaction holding the put or the delete for a set or a delete. *)
Theorem queued_operations_served_in_order o ops s :
  Forall keyed (o :: ops) → jobs s = [] → DatabasePromise s = None →
  let s1 := run (map Call (o :: ops)) s in
  let s2 := run (Fire (OpenSuccess (length (opens s)))
                   :: replicate (length (o :: ops)) Tick) s1 in
  opens s1
  = opens s ++ [OpenRequest (DatabaseName s) (length (promises s)) false]
  ∧ transactions s1 = transactions s
  ∧ map tx_intent (transactions s2)
    = map tx_intent (transactions s) ++ map intent (o :: ops).
Proof.
  intros Hops Hj Hc s1 s2.
  destruct (queued_calls ops o s Hops Hj Hc)
    as ((Hj1 & Hc1 & rs & Hp & Hrs) & Eo & Et).
  fold s1 in Hj1, Hc1, Hp, Eo, Et. split; [done|]. split; [done|].
  subst s2. clearbody s1. rewrite run_cons. cbn [step]. rewrite Hj1.
  cbn [fire]. unfold open_success. rewrite Eo, list_lookup_middle by done.
  rewrite <- Et.
  erewrite (serve (o :: ops) rs (VDatabase (length (opens s))) []);
    [|done|done|].
  - done.
  - cbn. rewrite Hj1. unfold triggered, pending_reactions. rewrite Hp.
    by rewrite app_nil_r.
Qed.

Lemma queued_operations_served_in_order_witness :
  let o := OpSet (VStr "a") (VNum 1) in
  let ops := [OpGet (VStr "a"); OpDelete (VStr "b")] in
  let s := defaultKVStorageArea in
  let s1 := run (map Call (o :: ops)) s in
  let s2 := run (Fire (OpenSuccess 0) :: replicate 3 Tick) s1 in
  Forall keyed (o :: ops) ∧ jobs s = [] ∧ DatabasePromise s = None
  ∧ map tx_intent (transactions s2)
    = [(readwrite, [Put (VStr "a") (VNum 1)]); (readonly, []);
       (readwrite, [Del (VStr "b")])].
Proof.
  assert (Forall keyed [OpSet (VStr "a") (VNum 1); OpGet (VStr "a");
                        OpDelete (VStr "b")]) as H
    by (repeat constructor).
  split_and!; [exact H|reflexivity|reflexivity|].
  exact (proj2 (proj2 (queued_operations_served_in_order
    (OpSet (VStr "a") (VNum 1)) [OpGet (VStr "a"); OpDelete (VStr "b")]
    defaultKVStorageArea H eq_refl eq_refl))).
Defined.

(** ** What a call hands back *)

Lemma state_alloc (ps : list promise) st p :
  p < length ps → (ps ++ [Promise st []]) !! p ≫= p_state = ps !! p ≫= p_state.
Proof. intros Hp. by rewrite lookup_app_l. Qed.

Lemma state_attach (ps : list promise) r q p :
  alter (attach r) q ps !! p ≫= p_state = ps !! p ≫= p_state.
Proof.
  destruct (decide (q = p)) as [->|Hne].
  - rewrite list_lookup_alter_eq. by destruct (ps !! p) as [[[?|] ?]|].
  - by rewrite list_lookup_alter_ne.
Qed.

Lemma then_pending p h s :
  let d := length (promises s) in
  (then_ p h s).1 = d
  ∧ outcome_of d (then_ p h s).2 = None
  ∧ ∀ q, q < d → outcome_of q (then_ p h s).2 = outcome_of q s.
Proof.
  unfold then_, new_promise, perform_then, outcome_of. cbn.
  split; [done|]. split.
  - by rewrite state_attach, list_lookup_middle.
  - intros q Hq. by rewrite state_attach, state_alloc.
Qed.

Lemma perform_pending m st s :
  ∃ d, (performADatabaseOperation m st s).1 = Some d
    ∧ length (promises s) ≤ d
    ∧ outcome_of d (performADatabaseOperation m st s).2 = None
    ∧ ∀ q, q < length (promises s) →
        outcome_of q (performADatabaseOperation m st s).2 = outcome_of q s.
Proof.
  rewrite performADatabaseOperation_eq.
  destruct s as [n c b ps js os ds ts rqs cs L fa dc pv].
  destruct c as [p|]; unfold then_, new_promise, perform_then, outcome_of;
    cbn; eexists; (split; [done|]).
  - split; [done|]. split.
    + by rewrite state_attach, list_lookup_middle.
    + intros q Hq. by rewrite state_attach, state_alloc.
  - rewrite length_app. cbn [length]. split; [lia|]. split.
    + rewrite state_attach, list_lookup_middle; [done|].
      rewrite length_app. simpl. lia.
    + intros q Hq. rewrite state_attach, !state_alloc; [done|lia|].
      rewrite length_app. simpl. lia.
Qed.

(** X10.  In any state, set, clear, and get and delete of an allowed key
    return a promise that the call has just created and that is pending
    when the call returns; the call settles no promise that existed
    before.  Results are delivered by later microtasks only. *)
Theorem calls_return_pending o s :
  reaches_database o →
  ∃ d, returned o s = Some d
    ∧ length (promises s) ≤ d
    ∧ outcome_of d (call o s) = None
    ∧ ∀ q, q < length (promises s) → outcome_of q (call o s) = outcome_of q s.
Proof.
  destruct o as [k v|k|k| |]; cbn [reaches_database returned call]; try done.
  - intros _. apply perform_pending.
  - intros Hk. unfold get. rewrite Hk. apply perform_pending.
  - intros Hk. unfold delete. rewrite Hk. apply perform_pending.
  - intros _. unfold clear. destruct (DatabasePromise s) as [p|].
    + match goal with |- context [then_ ?p ?h ?x] =>
        destruct (then_pending p h x) as (E1 & E2 & E3);
        destruct (then_ p h x) as [d s'] end.
      cbn [fst snd] in *. subst d. eexists. split; [done|].
      split; [done|]. by split.
    + unfold deletingTheDatabase, new_promise, outcome_of. cbn.
      eexists. split; [done|]. split; [done|].
      split; [by rewrite list_lookup_middle|].
      intros q Hq. by rewrite state_alloc.
Qed.

Lemma calls_return_pending_witness :
  reaches_database (OpGet (VStr "a"))
  ∧ ∃ d, returned (OpGet (VStr "a")) defaultKVStorageArea = Some d
      ∧ outcome_of d (call (OpGet (VStr "a")) defaultKVStorageArea) = None.
Proof.
  split; [reflexivity|].
  destruct (calls_return_pending (OpGet (VStr "a")) defaultKVStorageArea
              eq_refl) as (d & E & _ & Hp & _).
  exists d. split; [exact E|exact Hp].
Defined.

(** ** Before the first operation *)

Lemma unopened_step s a : quiet_action a → unopened s → unopened (step s a).
Proof.
  intros Ha ((H1 & H2 & H3 & H4 & H5 & H6) & Ho & Hc & Ht & Hr).
  destruct a as [o| |ev]; simpl.
  - destruct o; try done; unfold call.
    + unfold clear. rewrite Hc. simpl.
      split; [settlers; by intros|done].
    + unfold backingStore. destruct (private_BackingStoreObject (private s));
        (split; [by split_and!|done]).
  - unfold tick. destruct (jobs s) as [|j js] eqn:E.
    { split; [split_and!; try done; by rewrite E|done]. }
    apply Forall_cons in H2 as [Hj H2].
    destruct j as [[m st d|a d|orig d|t] o|t th]; simpl in *; try done.
    + split; [settlers; by intros|done].
    + destruct o; (split; [settlers; by intros|done]).
    + split; [settlers; by intros|done].
    + split; [settlers; by intros|done].
  - destruct (jobs s) eqn:E; [|by split; [split_and!; try done; rewrite E|]].
    destruct ev; open_events; rewrite ?Ho, ?Ht, ?Hr; simpl;
      try (by split; [split_and!; try done; rewrite E|]);
      by_cases; try (by split; [split_and!; try done; rewrite E|]);
      (split; [settlers; rewrite ?E; by intros|done]).
Qed.

(** X11.  The database is opened lazily.  As long as no set, get or
    delete is called, whatever else runs (the constructor, backingStore,
    clear, microtasks, events of the engine), the area asks for no open,
    caches no promise, and creates no transaction and no request. *)
Theorem no_open_before_first_operation name persisted tr :
  Forall quiet_action tr →
  let s := run tr (constructor name (host persisted)) in
  opens s = [] ∧ DatabasePromise s = None
  ∧ transactions s = [] ∧ requests s = [].
Proof.
  intros Htr s. enough (unopened s) as (_ & ? & ? & ? & ?) by done.
  subst s. unfold run. induction tr as [|a tr IH] using rev_ind.
  - split; [|done]. repeat split; simpl; try by constructor.
    by intros [] ?.
  - apply Forall_app in Htr as [Htr [Ha _]%Forall_cons].
    rewrite foldl_app. simpl. apply unopened_step; auto.
Qed.

Lemma no_open_before_first_operation_witness :
  let tr := [Call OpBackingStore; Call OpClear; Fire (DeleteSuccess 0);
             Call OpClear; Tick] in
  Forall quiet_action tr ∧ opens (run tr defaultKVStorageArea) = [].
Proof.
  assert (Forall quiet_action
    [Call OpBackingStore; Call OpClear; Fire (DeleteSuccess 0);
     Call OpClear; Tick]) as H by (repeat constructor).
  split; [exact H|].
  exact (proj1 (no_open_before_first_operation "default" [] _ H)).
Defined.

(** ** The database the requests name *)

Lemma addressed_outside n s s' :
  outside_heap s' = outside_heap s → addressed n s → addressed n s'.
Proof. unfold outside_heap, addressed. intros [= -> _ _ -> -> _ _ _]. done. Qed.

Lemma addressed_tick n s : addressed n s → addressed n (tick s).
Proof.
  intros Hs. unfold tick.
  destruct (jobs s) as [|[[m st d|a d|orig d|t] [v|e]|t th] js]; simpl;
    try done; try (by eapply addressed_outside).
  - match goal with |- context [run_steps st ?t ?x] =>
      destruct (run_steps_outside st t x) as (F & _ & _);
      destruct (run_steps st t x) as [c s1] end.
    eapply addressed_outside; [|exact Hs].
    unfold outside_heap in *. simpl in F. by destruct c.
  - destruct Hs as (Hn & Ho & Hd). split_and!; simpl; try done.
    apply Forall_app. split; [done|]. by repeat constructor.
  - destruct Hs as (Hn & Ho & Hd). split_and!; simpl; try done.
    apply Forall_app. split; [done|]. by repeat constructor.
Qed.

Lemma addressed_fire n ev s : addressed n s → addressed n (fire ev s).
Proof.
  intros (Hn & Ho & Hd). pose proof dispatch_outside as D.
  destruct ev; open_events; by_cases;
    try match goal with
    | |- context [dispatch ?ty ?res ?e ?ls ?s] =>
        destruct (D ty res e ls s) as (F & _ & _);
        (eapply addressed_outside; [exact F|])
    end;
    split_and!; simpl; try done;
    match goal with
    | H : _ !! _ = Some _ |- _ =>
        apply Forall_insert; [done|];
        first [ exact (Forall_lookup_1 _ _ _ _ Ho H)
              | exact (Forall_lookup_1 _ _ _ _ Hd H) ]
    end.
Qed.

Lemma addressed_call n o s : addressed n s → addressed n (call o s).
Proof.
  intros (Hn & Ho & Hd).
  destruct o; unfold call, set, get, delete, clear, backingStore;
    rewrite ?performADatabaseOperation_eq; by_cases;
    split_and!; simpl; try done;
    apply Forall_app; (split; [done|]); by repeat constructor.
Qed.

Lemma addressed_run name persisted tr :
  addressed (Some ("kv-storage:" +:+ name))
    (run tr (constructor name (host persisted))).
Proof.
  unfold run. induction tr as [|a tr IH] using rev_ind.
  - by split_and!; simpl; try constructor.
  - rewrite foldl_app. simpl. destruct a as [o| |ev]; simpl.
    + by apply addressed_call.
    + by apply addressed_tick.
    + destruct (jobs _); [by apply addressed_fire|done].
Qed.

Lemma prefix_inj (p a b : string) : p +:+ a = p +:+ b → a = b.
Proof. induction p as [|c p IH]; simpl; [done|]. intros [= E]. by apply IH. Qed.

(** X12.  Whatever has run on the area made for [name], every open and
    every destruction it has asked of the engine names the database
    "kv-storage:" followed by [name].  Areas made for different names
    never name the same database. *)
Theorem requests_name_the_area name persisted tr :
  let s := run tr (constructor name (host persisted)) in
  Forall (λ o, o_name o = Some ("kv-storage:" +:+ name)) (opens s)
  ∧ Forall (λ d, d_name d = Some ("kv-storage:" +:+ name)) (deletes s)
  ∧ ∀ name' persisted' tr',
      DatabaseName (run tr' (constructor name' (host persisted')))
      = DatabaseName s → name' = name.
Proof.
  intros s. destruct (addressed_run name persisted tr) as (Hn & Ho & Hd).
  fold s in Hn, Ho, Hd. split; [done|]. split; [done|].
  intros name' persisted' tr' E.
  destruct (addressed_run name' persisted' tr') as (Hn' & _).
  rewrite Hn, Hn' in E. injection E as E. by apply prefix_inj in E.
Qed.

Lemma requests_name_the_area_witness :
  let s := run [Call (OpGet (VStr "a")); Call OpClear] defaultKVStorageArea in
  length (opens s) = 1
  ∧ Forall (λ o, o_name o = Some "kv-storage:default") (opens s).
Proof.
  split; [reflexivity|].
  exact (proj1 (requests_name_the_area "default" []
                  [Call (OpGet (VStr "a")); Call OpClear])).
Defined.
